(** * dpt: a command-line dispatcher (src/index.ts)

    The program keeps a registry [commands] (a plain JavaScript object used
    as a dictionary from command names to handler functions), parses the
    process argument vector with [util.parseArgs], and either invokes the
    handler it finds or prints the list of command names.

    The embedding follows the source statement by statement.  Two pieces of
    the host are modelled next to it, because the source leans on them:
    - the property semantics of an ordinary object ([commands[k]] and
      [commands[k] = f] are the [[Get]] and [[Set]] of ECMA-262, which walk
      the prototype chain), in [Module Js];
    - [util.parseArgs] under the configuration written in the source
      (no options, strict, positionals allowed), in [Module ParseArgs]. *)

From Stdlib Require Import String Ascii List Bool NArith Arith Lia.
From Stdlib Require Import DecimalString.
From Equations Require Import Equations.
Import ListNotations.

Local Open Scope string_scope.
Local Open Scope list_scope.
Local Open Scope nat_scope.

(** ** Errors, handlers and values *)

(** What can be thrown.  [ERR_PARSE_ARGS_UNKNOWN_OPTION] is the error of
    [util.parseArgs] (the spec's ArgumentError); the three TypeErrors are
    the ones the object semantics raises; [Exception] is whatever a handler
    throws itself. *)
Inductive Error : Type :=
| ERR_PARSE_ARGS_UNKNOWN_OPTION (rawName : string)
| TypeError_not_a_function
| TypeError_readonly_property (key : string)
| TypeError_restricted_property (key : string)
| Exception (message : string).

(** [type CommandFunction = (args: string[]) => void].  A handler is run for
    its effects: the lines it writes with [console.log] and whether it
    returns ([None]) or throws ([Some e]). *)
Definition CommandFunction : Type := list string -> list string * option Error.

(** The intrinsic functions an ordinary object can inherit, named by the
    prototype object that holds them and their key:
    [OfObjectPrototype "toString"] is the initial value of
    [Object.prototype.toString], [OfFunctionPrototype "call"] that of
    [Function.prototype.call]. *)
Inductive Intrinsic : Type :=
| OfObjectPrototype (key : string)
| OfFunctionPrototype (key : string).

(** The values a property read on [commands] can produce. *)
Inductive Value : Type :=
| Undefined
| Primitive                          (* a string or a number: a function's [name] or [length] *)
| Closure (f : CommandFunction)      (* a function object of the program *)
| Builtin (b : Intrinsic)            (* a function object of the host *)
| ObjectPrototype.                   (* the object %Object.prototype% *)

Module Js.

(** *** The object [commands]

    [export const commands: Record<string, CommandFunction> = {}] is an
    ordinary object: it has own properties and a [[Prototype]] slot, which
    the literal [{}] sets to %Object.prototype%. *)

(** The [[Prototype]] slot of [commands]: %Object.prototype%, or a function
    object once one has been assigned through [__proto__]. *)
Inductive Prototype : Type :=
| ProtoObject
| ProtoFunction (f : CommandFunction).

(** Own properties are kept in the order of OrdinaryOwnPropertyKeys: array
    indices in ascending order, then the other keys in creation order. *)
Record Object : Type := mkObject {
  properties : list (string * CommandFunction);
  prototype : Prototype
}.

(** [{}] *)
Definition empty : Object := mkObject [] ProtoObject.

(** An array index is a canonical numeric string below 2^32 - 1. *)
Definition array_index (key : string) : option N :=
  match NilEmpty.uint_of_string key with
  | Some u =>
      let n := N.of_uint u in
      if String.eqb (NilZero.string_of_uint (N.to_uint n)) key && (n <? 4294967295)%N
      then Some n else None
  | None => None
  end.

Fixpoint own_property (key : string) (ps : list (string * CommandFunction))
  : option CommandFunction :=
  match ps with
  | [] => None
  | (k, f) :: ps' => if String.eqb k key then Some f else own_property key ps'
  end.

(** Overwriting an existing own property keeps its place. *)
Fixpoint update_property (key : string) (f : CommandFunction)
  (ps : list (string * CommandFunction)) : list (string * CommandFunction) :=
  match ps with
  | [] => []
  | (k, g) :: ps' =>
      if String.eqb k key then (k, f) :: ps' else (k, g) :: update_property key f ps'
  end.

(** A new array index goes before the first key that is a larger index or
    no index at all. *)
Fixpoint insert_index (i : N) (key : string) (f : CommandFunction)
  (ps : list (string * CommandFunction)) : list (string * CommandFunction) :=
  match ps with
  | [] => [(key, f)]
  | (k, g) :: ps' =>
      match array_index k with
      | Some j => if (j <? i)%N then (k, g) :: insert_index i key f ps'
                  else (key, f) :: ps
      | None => (key, f) :: ps
      end
  end.

(** Creating an own property that does not exist yet. *)
Definition create_property (key : string) (f : CommandFunction)
  (ps : list (string * CommandFunction)) : list (string * CommandFunction) :=
  match array_index key with
  | Some i => insert_index i key f ps
  | None => ps ++ [(key, f)]
  end.

(** [Object.keys(o)]: every own property of [commands] is enumerable. *)
Definition keys (o : Object) : list string := map fst (properties o).

(** *** The prototype chain *)

(** The objects a lookup on [commands] can visit. *)
Inductive Holder : Type :=
| TheObject
| FunctionObject (f : CommandFunction)
| FunctionPrototype
| TheObjectPrototype.

Inductive Accessor : Type :=
| ProtoAccessor        (* get/set Object.prototype.__proto__ *)
| ThrowTypeError.      (* %ThrowTypeError%, for [caller] and [arguments] *)

Inductive Descriptor : Type :=
| Data (value : Value) (writable : bool)
| AccessorProperty (a : Accessor).

Definition mem (key : string) (ks : list string) : bool :=
  existsb (String.eqb key) ks.

(** The string-keyed properties of %Object.prototype% other than
    [__proto__]; all of them are writable function-valued data properties. *)
Definition object_prototype_methods : list string :=
  [ "constructor"; "__defineGetter__"; "__defineSetter__"; "hasOwnProperty";
    "__lookupGetter__"; "__lookupSetter__"; "isPrototypeOf";
    "propertyIsEnumerable"; "toString"; "valueOf"; "toLocaleString" ].

(** The writable function-valued data properties of %Function.prototype%. *)
Definition function_prototype_methods : list string :=
  [ "apply"; "bind"; "call"; "constructor"; "toString" ].

(** [[GetOwnProperty]] of each object of the chain.  A handler is a function
    object like the arrow function of the source: its own string keys are
    [length] and [name], both read-only. *)
Definition getOwnProperty (h : Holder) (o : Object) (key : string) : option Descriptor :=
  match h with
  | TheObject =>
      match own_property key (properties o) with
      | Some f => Some (Data (Closure f) true)
      | None => None
      end
  | FunctionObject _ =>
      if mem key ["length"; "name"] then Some (Data Primitive false) else None
  | FunctionPrototype =>
      if mem key ["length"; "name"] then Some (Data Primitive false)
      else if mem key ["arguments"; "caller"] then Some (AccessorProperty ThrowTypeError)
      else if mem key function_prototype_methods
      then Some (Data (Builtin (OfFunctionPrototype key)) true)
      else None
  | TheObjectPrototype =>
      if String.eqb key "__proto__" then Some (AccessorProperty ProtoAccessor)
      else if mem key object_prototype_methods
      then Some (Data (Builtin (OfObjectPrototype key)) true)
      else None
  end.

Definition chain (o : Object) : list Holder :=
  TheObject ::
  match prototype o with
  | ProtoObject => [TheObjectPrototype]
  | ProtoFunction f => [FunctionObject f; FunctionPrototype; TheObjectPrototype]
  end.

(** The first object of the chain that has the property, with its
    descriptor. *)
Fixpoint find_property (hs : list Holder) (o : Object) (key : string)
  : option (Holder * Descriptor) :=
  match hs with
  | [] => None
  | h :: hs' =>
      match getOwnProperty h o key with
      | Some d => Some (h, d)
      | None => find_property hs' o key
      end
  end.

Definition prototype_value (o : Object) : Value :=
  match prototype o with
  | ProtoObject => ObjectPrototype
  | ProtoFunction f => Closure f
  end.

(** [o[key]]: OrdinaryGet with [o] as the receiver. *)
Definition Get (o : Object) (key : string) : Value + Error :=
  match find_property (chain o) o key with
  | None => inl Undefined
  | Some (_, Data v _) => inl v
  | Some (_, AccessorProperty ProtoAccessor) => inl (prototype_value o)
  | Some (_, AccessorProperty ThrowTypeError) => inr (TypeError_restricted_property key)
  end.

(** [o[key] = f] in strict code (the source is an ES module): OrdinarySet
    with [o] as the receiver.  An own property is overwritten; an inherited
    writable data property, or none at all, creates an own property; an
    inherited read-only one makes the assignment throw; an inherited
    accessor has its setter called, and the setter of [__proto__] replaces
    the [[Prototype]] of [o] by the function object assigned. *)
Definition Set_ (o : Object) (key : string) (f : CommandFunction) : Object + Error :=
  match find_property (chain o) o key with
  | None =>
      inl (mkObject (create_property key f (properties o)) (prototype o))
  | Some (TheObject, _) =>
      inl (mkObject (update_property key f (properties o)) (prototype o))
  | Some (_, Data _ true) =>
      inl (mkObject (create_property key f (properties o)) (prototype o))
  | Some (_, Data _ false) => inr (TypeError_readonly_property key)
  | Some (_, AccessorProperty ProtoAccessor) =>
      inl (mkObject (properties o) (ProtoFunction f))
  | Some (_, AccessorProperty ThrowTypeError) => inr (TypeError_restricted_property key)
  end.

End Js.

Module ParseArgs.

(** *** [util.parseArgs({ args, options: {}, strict: true, allowPositionals: true })]

    [parseArgs] belongs to the host runtime, not to the repository.  The
    model is the algorithm of Node's lib/internal/util/parse_args, which
    Bun follows (tokenise the arguments, then consume the tokens), at the
    configuration the source passes; the helper predicates keep their
    names.  The [index] field of a token is left out: nothing the source
    reads depends on it.  A string is its sequence of code units. *)

Inductive Token : Type :=
| option_ (name rawName : string) (value : option string) (inlineValue : option bool)
| positional (value : string)
| option_terminator.

(** [optionsGetOwn(options, longOption, 'type')] with [options: {}]. *)
Definition optionsGetOwn_type (longOption : string) : option string := None.

(** [findLongOptionForShort(shortOption, options)] with [options: {}]: no
    option declares a [short], the short name stands for itself. *)
Definition findLongOptionForShort (shortOption : string) : string := shortOption.

Definition charAt (s : string) (i : nat) : string :=
  match String.get i s with
  | Some c => String c EmptyString
  | None => EmptyString
  end.

Definition includes_from (s sub : string) (position : nat) : bool :=
  match String.index position sub s with
  | Some _ => true
  | None => false
  end.

(** [StringPrototypeIndexOf(s, sub)] where [sub] occurs in [s], as it does
    at the one place of use (an argument that passed
    [isLongOptionAndValue] contains an ['=']). *)
Definition indexOf (s sub : string) : nat :=
  match String.index 0 sub s with
  | Some i => i
  | None => 0
  end.

Definition is_string_type (t : option string) : bool :=
  match t with
  | Some t' => String.eqb t' "string"
  | None => false
  end.

Definition isLoneShortOption (arg : string) : bool :=
  (String.length arg =? 2) && String.eqb (charAt arg 0) "-"
  && negb (String.eqb (charAt arg 1) "-").

Definition isShortOptionGroup (arg : string) : bool :=
  if String.length arg <=? 2 then false
  else if negb (String.eqb (charAt arg 0) "-") then false
  else if String.eqb (charAt arg 1) "-" then false
  else negb (is_string_type (optionsGetOwn_type (findLongOptionForShort (charAt arg 1)))).

Definition isShortOptionAndValue (arg : string) : bool :=
  if String.length arg <=? 2 then false
  else if negb (String.eqb (charAt arg 0) "-") then false
  else if String.eqb (charAt arg 1) "-" then false
  else is_string_type (optionsGetOwn_type (findLongOptionForShort (charAt arg 1))).

Definition isLoneLongOption (arg : string) : bool :=
  (2 <? String.length arg) && String.prefix "--" arg && negb (includes_from arg "=" 3).

Definition isLongOptionAndValue (arg : string) : bool :=
  (2 <? String.length arg) && String.prefix "--" arg && includes_from arg "=" 3.

(** [-fXzy] is expanded to [-f -X -z -y]; with no string-typed option every
    letter of the group becomes a short option of its own. *)
Definition expand_group (arg : string) : list string :=
  map (fun c => String "-" (String c EmptyString))
      (list_ascii_of_string (String.substring 1 (String.length arg - 1) arg)).

(** What one argument costs the loop: a short group is replaced by its
    letters before it is consumed. *)
Definition cost (arg : string) : nat :=
  if String.length arg <=? 2 then 1 else String.length arg.

Definition weight (remainingArgs : list string) : nat :=
  list_sum (map cost remainingArgs).

(** Phase 1, [argsToTokens(args, options)]: the [while] loop over
    [remainingArgs], which shifts one argument per round and unshifts the
    letters of a short group. *)
Equations? argsToTokens (remainingArgs : list string) : list Token
  by wf (weight remainingArgs) lt :=
  argsToTokens [] := [];
  argsToTokens (arg :: rest) :=
    if String.eqb arg "--" then
      (* everything after a bare '--' is a positional *)
      option_terminator :: map positional rest
    else if isLoneShortOption arg then
      option_ (findLongOptionForShort (charAt arg 1)) arg None None :: argsToTokens rest
    else
      match sumbool_of_bool (isShortOptionGroup arg) with
      | left _ => argsToTokens (expand_group arg ++ rest)
      | right _ =>
          if isShortOptionAndValue arg then
            option_ (findLongOptionForShort (charAt arg 1)) (String.substring 0 2 arg)
                    (Some (String.substring 2 (String.length arg - 2) arg)) (Some true)
            :: argsToTokens rest
          else if isLoneLongOption arg then
            option_ (String.substring 2 (String.length arg - 2) arg) arg None None
            :: argsToTokens rest
          else if isLongOptionAndValue arg then
            let equalIndex := indexOf arg "=" in
            option_ (String.substring 2 (equalIndex - 2) arg)
                    ("--" ++ String.substring 2 (equalIndex - 2) arg)
                    (Some (String.substring (S equalIndex) (String.length arg - S equalIndex) arg))
                    (Some true)
            :: argsToTokens rest
          else positional arg :: argsToTokens rest
      end.
Proof.
  all: change (weight (arg :: rest)) with (cost arg + weight rest).
  all: assert (Hpos : 1 <= cost arg)
    by (unfold cost; destruct (String.length arg <=? 2) eqn:E;
        [lia | apply Nat.leb_gt in E; lia]).
  all: try lia.
  assert (Hlen : 2 < String.length arg).
  { match goal with H : isShortOptionGroup arg = true |- _ => revert H end.
    unfold isShortOptionGroup.
    destruct (String.length arg <=? 2) eqn:E; [discriminate|].
    intros _. apply Nat.leb_gt in E. exact E. }
  assert (Hletters : forall s,
    weight (map (fun c => String "-" (String c EmptyString)) (list_ascii_of_string s))
    = String.length s).
  { induction s as [|c s IH]; [reflexivity|].
    change (S (weight (map (fun c => String "-" (String c EmptyString)) (list_ascii_of_string s)))
            = S (String.length s)).
    rewrite IH. reflexivity. }
  assert (Htail : forall s n,
    String.length (String.substring 1 n s) = Nat.min n (String.length s - 1)).
  { intros s n. destruct s as [|c s]; simpl.
    - destruct n; reflexivity.
    - rewrite Nat.sub_0_r. revert n.
      induction s as [|d s IH]; intros [|n]; simpl; auto. }
  unfold weight at 1. rewrite map_app, list_sum_app.
  fold (weight (expand_group arg)). fold (weight rest).
  unfold expand_group. rewrite Hletters, Htail.
  unfold cost. destruct (String.length arg <=? 2) eqn:E; [apply Nat.leb_le in E|]; lia.
Qed.

(** Phase 2: the tokens are consumed in order.  In strict mode an option
    token whose name is not an own key of [options] (here: any) throws
    ERR_PARSE_ARGS_UNKNOWN_OPTION with its raw name; a positional is pushed
    (positionals are allowed); the terminator yields nothing. *)
Fixpoint processTokens (tokens : list Token) : list string + Error :=
  match tokens with
  | [] => inl []
  | option_ _ rawName _ _ :: _ => inr (ERR_PARSE_ARGS_UNKNOWN_OPTION rawName)
  | positional value :: tokens' =>
      match processTokens tokens' with
      | inl positionals => inl (value :: positionals)
      | inr e => inr e
      end
  | option_terminator :: tokens' => processTokens tokens'
  end.

(** The [positionals] of the result, or the error thrown. *)
Definition parseArgs (args : list string) : list string + Error :=
  processTokens (argsToTokens args).

End ParseArgs.

(** ** The program *)

(** What the program acts on: the module-level object [commands] and the
    lines written to standard output. *)
Record World : Type := mkWorld {
  commands : Js.Object;
  stdout : list string
}.

(** How a piece of the program ends: it returns, it throws, or it has
    entered an intrinsic function of the host with the array [args] as its
    argument, where the model stops following it.  An intrinsic writes
    nothing to standard output. *)
Inductive Result (A : Type) : Type :=
| Normal (a : A) (w : World)
| Throw (e : Error) (w : World)
| Enter (b : Intrinsic) (args : list string) (w : World).
Arguments Normal {A} a w.
Arguments Throw {A} e w.
Arguments Enter {A} b args w.

Definition M (A : Type) : Type := World -> Result A.

Definition ret {A : Type} (a : A) : M A := fun w => Normal a w.

Definition bind {A B : Type} (m : M A) (k : A -> M B) : M B :=
  fun w =>
    match m w with
    | Normal a w' => k a w'
    | Throw e w' => Throw e w'
    | Enter b args w' => Enter b args w'
    end.

Declare Scope js_scope.
Delimit Scope js_scope with js.
Notation "x <- m ;; k" := (bind m (fun x => k))
  (at level 61, m at next level, right associativity) : js_scope.
Notation "m ;; k" := (bind m (fun _ => k))
  (at level 61, right associativity) : js_scope.
Local Open Scope js_scope.

(** [console.log(line)] *)
Definition console_log (line : string) : M unit :=
  fun w => Normal tt (mkWorld (commands w) (stdout w ++ [line])).

(** [commands[key]] *)
Definition lookup (key : string) : M Value :=
  fun w =>
    match Js.Get (commands w) key with
    | inl v => Normal v w
    | inr e => Throw e w
    end.

(** [v(args)]: only function objects can be called. *)
Definition call (v : Value) (args : list string) : M unit :=
  fun w =>
    match v with
    | Closure f =>
        let (lines, completion) := f args in
        let w' := mkWorld (commands w) (stdout w ++ lines) in
        match completion with
        | None => Normal tt w'
        | Some e => Throw e w'
        end
    | Builtin b => Enter b args w
    | Undefined | Primitive | ObjectPrototype => Throw TypeError_not_a_function w
    end.

Fixpoint for_of {A : Type} (xs : list A) (body : A -> M unit) : M unit :=
  match xs with
  | [] => ret tt
  | x :: xs' => body x ;; for_of xs' body
  end.

(** A JavaScript value used as a property key: [undefined] is the key
    ["undefined"]. *)
Definition ToPropertyKey (v : option string) : string :=
  match v with
  | Some s => s
  | None => "undefined"
  end.

(** index.ts:16-19 *)
Definition defineCommand (commandName : string) (commandFunction : CommandFunction) : M unit :=
  fun w =>
    match Js.Set_ (commands w) commandName commandFunction with
    | inl o => Normal tt (mkWorld o (stdout w))
    | inr e => Throw e w
    end.

(** index.ts:21-23 *)
Definition hw : CommandFunction := fun _ => (["Hello world"], None).

(** index.ts:103-106.  [command] is [undefined] ([None]) when there is no
    positional at all. *)
Record Command : Type := mkCommand {
  command : option string;
  args : list string
}.

(** index.ts:44-61 *)
Definition parseCommand (args : list string) : M Command :=
  fun w =>
    match ParseArgs.parseArgs args with
    | inl positionals => Normal (mkCommand (hd_error positionals) (tl positionals)) w
    | inr e => Throw e w
    end.

(** index.ts:78-93 *)
Definition runCommand (command : option string) (args : list string) : M unit :=
  commandFunction <- lookup (ToPropertyKey command) ;;
  match commandFunction with
  | Undefined =>
      console_log "Available commands:" ;;
      (fun w => for_of (Js.keys (commands w))
                       (fun command => console_log ("- " ++ command)) w)
  | _ => call commandFunction args
  end.

(** index.ts:97-101 *)
Definition dispatch (command : Command) : M unit :=
  if length (args command) =? 0 then
    help <- lookup "help" ;; call help []
  else
    runCommand (nth_error (args command) 1) (args command).

(** index.ts:96-101, with [Bun.argv] as the parameter. *)
Definition main (argv : list string) : M unit :=
  command <- parseCommand argv ;; dispatch command.

(** The module body from top to bottom. *)
Definition index_ts (argv : list string) : M unit :=
  defineCommand "hw" hw ;; main argv.

(** The world when the module starts: [commands = {}], nothing printed. *)
Definition initial : World := mkWorld Js.empty [].

(** The world when line 96 is reached. *)
Definition loaded : World :=
  mkWorld (Js.mkObject [("hw", hw)] Js.ProtoObject) [].

(** One run of the program; it exits successfully exactly when the result
    is [Normal]. *)
Definition run (argv : list string) : Result unit := index_ts argv initial.

(** ** Vocabulary of the properties *)

(** The objects above [commands] in its chain. *)
Definition ancestors (p : Js.Prototype) : list Js.Holder :=
  match p with
  | Js.ProtoObject => [Js.TheObjectPrototype]
  | Js.ProtoFunction f => [Js.FunctionObject f; Js.FunctionPrototype; Js.TheObjectPrototype]
  end.

(** What is inherited depends on the prototype only. *)
Definition inherited (p : Js.Prototype) (key : string) : option (Js.Holder * Js.Descriptor) :=
  Js.find_property (ancestors p) Js.empty key.

(** A token that begins with the option marker. *)
Definition begins_with_dash (tok : string) : bool := String.prefix "-" tok.

(** A token the tokeniser reads as an option: it begins with a dash, has a
    second character, and is not the bare terminator. *)
Definition option_like (tok : string) : bool :=
  String.prefix "-" tok && (2 <=? String.length tok) && negb (String.eqb tok "--").

(** A token the tokeniser reads as a positional. *)
Definition plain (tok : string) : bool :=
  negb (option_like tok) && negb (String.eqb tok "--").

(** The lines of the fallback listing for a given registry. *)
Definition listing (o : Js.Object) : list string :=
  "Available commands:" :: map (fun name => "- " ++ name)%string (Js.keys o).

(** How [Object.keys] places two keys: an array index comes before every key
    that is not one, and two array indices come in ascending numeric
    order.  Two keys that are not array indices are in creation order, on
    which the keys themselves say nothing. *)
Definition key_before (k1 k2 : string) : Prop :=
  match Js.array_index k1, Js.array_index k2 with
  | Some i, Some j => (i < j)%N
  | Some _, None => True
  | None, Some _ => False
  | None, None => True
  end.

(** The own keys of a registry are distinct, none of them is "__proto__",
    and each comes [key_before] every later one. *)
Definition keys_in_order (o : Js.Object) : Prop :=
  NoDup (Js.keys o)
  /\ ~ In "__proto__" (Js.keys o)
  /\ ForallOrdPairs key_before (Js.keys o).

(** The name under which the unknown-option error reports an option-like
    token: the first letter of a short option or group, the part before
    the ['='] of a long option. *)
Definition raw_name (tok : string) : string :=
  if String.prefix "--" tok then
    if ParseArgs.includes_from tok "=" 3
    then ("--" ++ String.substring 2 (ParseArgs.indexOf tok "=" - 2) tok)%string
    else tok
  else String.substring 0 2 tok.

(** One pass over the vector, to compare [parseArgs] with: stop at a bare
    "--" and keep what follows it, fail at an option-like token, keep
    anything else. *)
Fixpoint scan (args : list string) : list string + Error :=
  match args with
  | [] => inl []
  | arg :: rest =>
      if String.eqb arg "--" then inl rest
      else if option_like arg then inr (ERR_PARSE_ARGS_UNKNOWN_OPTION (raw_name arg))
      else match scan rest with
           | inl positionals => inl (arg :: positionals)
           | inr e => inr e
           end
  end.


(** * Properties *)

(** ** Own properties of [commands] *)

Section OwnProperties.

Implicit Types (key m : string) (f g : CommandFunction).
Implicit Types ps : list (string * CommandFunction).

Lemma own_property_update_same key f g ps :
  Js.own_property key ps = Some g ->
  Js.own_property key (Js.update_property key f ps) = Some f.
Proof.
  induction ps as [|[k h] ps IH]; simpl; [discriminate|].
  destruct (String.eqb k key) eqn:E; simpl; rewrite E; auto.
Qed.

Lemma own_property_update_other key m f ps :
  m <> key ->
  Js.own_property m (Js.update_property key f ps) = Js.own_property m ps.
Proof.
  intros Hne. induction ps as [|[k h] ps IH]; simpl; [reflexivity|].
  destruct (String.eqb k key) eqn:E; simpl.
  - apply String.eqb_eq in E. subst k.
    destruct (String.eqb key m) eqn:E'; [|reflexivity].
    apply String.eqb_eq in E'. congruence.
  - rewrite IH. reflexivity.
Qed.

Lemma own_property_insert_index_same i key f ps :
  Js.own_property key ps = None ->
  Js.own_property key (Js.insert_index i key f ps) = Some f.
Proof.
  induction ps as [|[k h] ps IH]; simpl; intros Hnone.
  - rewrite String.eqb_refl. reflexivity.
  - destruct (String.eqb k key) eqn:E; [discriminate|].
    destruct (Js.array_index k) as [j|]; [destruct (j <? i)%N|];
      simpl; rewrite ?E, ?String.eqb_refl; auto.
Qed.

Lemma own_property_insert_index_other i key m f ps :
  m <> key ->
  Js.own_property m (Js.insert_index i key f ps) = Js.own_property m ps.
Proof.
  intros Hne.
  assert (Hkm : String.eqb key m = false) by (apply String.eqb_neq; congruence).
  induction ps as [|[k h] ps IH]; simpl.
  - rewrite Hkm. reflexivity.
  - destruct (Js.array_index k) as [j|]; [destruct (j <? i)%N|];
      simpl; rewrite ?Hkm, ?IH; reflexivity.
Qed.

Lemma own_property_app key ps ps' :
  Js.own_property key (ps ++ ps') =
  match Js.own_property key ps with
  | Some f => Some f
  | None => Js.own_property key ps'
  end.
Proof.
  induction ps as [|[k h] ps IH]; simpl; [reflexivity|].
  destruct (String.eqb k key); auto.
Qed.

Lemma own_property_create_same key f ps :
  Js.own_property key ps = None ->
  Js.own_property key (Js.create_property key f ps) = Some f.
Proof.
  intros Hnone. unfold Js.create_property.
  destruct (Js.array_index key) as [i|].
  - apply own_property_insert_index_same; assumption.
  - rewrite own_property_app, Hnone. simpl. rewrite String.eqb_refl. reflexivity.
Qed.

Lemma own_property_create_other key m f ps :
  m <> key ->
  Js.own_property m (Js.create_property key f ps) = Js.own_property m ps.
Proof.
  intros Hne. unfold Js.create_property.
  destruct (Js.array_index key) as [i|].
  - apply own_property_insert_index_other; assumption.
  - rewrite own_property_app. simpl.
    assert (Hkm : String.eqb key m = false) by (apply String.eqb_neq; congruence).
    rewrite Hkm. destruct (Js.own_property m ps); reflexivity.
Qed.

End OwnProperties.

(** ** [commands[key]] and [commands[key] = f] along the prototype chain *)

Section PropertyAccess.

Implicit Types (key m : string) (f g : CommandFunction) (o : Js.Object).

Lemma find_property_chain o key :
  Js.find_property (Js.chain o) o key =
  match Js.own_property key (Js.properties o) with
  | Some f => Some (Js.TheObject, Js.Data (Closure f) true)
  | None => inherited (Js.prototype o) key
  end.
Proof.
  unfold Js.chain, inherited. simpl.
  destruct (Js.own_property key (Js.properties o)); [reflexivity|].
  destruct (Js.prototype o); reflexivity.
Qed.

Lemma inherited_holder p key h d :
  inherited p key = Some (h, d) -> h <> Js.TheObject.
Proof.
  unfold inherited. destruct p as [|f]; simpl; intros H.
  all: repeat match type of H with
       | match ?c with _ => _ end = _ => destruct c
       end; inversion H; discriminate.
Qed.

Lemma inherited_proto_accessor p key h :
  inherited p key = Some (h, Js.AccessorProperty Js.ProtoAccessor) ->
  key = "__proto__".
Proof.
  destruct (String.eqb_spec key "__proto__") as [|Hne]; [trivial|].
  apply String.eqb_neq in Hne.
  unfold inherited. destruct p as [|f]; simpl; rewrite Hne; intros H.
  all: repeat match type of H with
       | context [if ?b then _ else _] => destruct b
       end; discriminate.
Qed.

Lemma inherited_proto p :
  inherited p "__proto__" = Some (Js.TheObjectPrototype, Js.AccessorProperty Js.ProtoAccessor).
Proof. destruct p; reflexivity. Qed.

(** Under %Object.prototype% nothing inherited is read-only or restricted. *)
Lemma inherited_plain key :
  inherited Js.ProtoObject key = None
  \/ (exists h v, inherited Js.ProtoObject key = Some (h, Js.Data v true))
  \/ inherited Js.ProtoObject key = Some (Js.TheObjectPrototype, Js.AccessorProperty Js.ProtoAccessor).
Proof.
  unfold inherited, ancestors, Js.find_property, Js.getOwnProperty.
  destruct (String.eqb key "__proto__"); [right; right; reflexivity|].
  destruct (Js.mem key Js.object_prototype_methods); [right; left; eauto | left; reflexivity].
Qed.

Lemma Get_unfold o key :
  Js.Get o key =
  match Js.own_property key (Js.properties o) with
  | Some f => inl (Closure f)
  | None =>
      match inherited (Js.prototype o) key with
      | None => inl Undefined
      | Some (_, Js.Data v _) => inl v
      | Some (_, Js.AccessorProperty Js.ProtoAccessor) => inl (Js.prototype_value o)
      | Some (_, Js.AccessorProperty Js.ThrowTypeError) =>
          inr (TypeError_restricted_property key)
      end
  end.
Proof.
  unfold Js.Get. rewrite find_property_chain.
  destruct (Js.own_property key (Js.properties o)); reflexivity.
Qed.

Lemma Set_unfold o key f :
  Js.Set_ o key f =
  match Js.own_property key (Js.properties o) with
  | Some _ => inl (Js.mkObject (Js.update_property key f (Js.properties o)) (Js.prototype o))
  | None =>
      match inherited (Js.prototype o) key with
      | None | Some (_, Js.Data _ true) =>
          inl (Js.mkObject (Js.create_property key f (Js.properties o)) (Js.prototype o))
      | Some (_, Js.Data _ false) => inr (TypeError_readonly_property key)
      | Some (_, Js.AccessorProperty Js.ProtoAccessor) =>
          inl (Js.mkObject (Js.properties o) (Js.ProtoFunction f))
      | Some (_, Js.AccessorProperty Js.ThrowTypeError) =>
          inr (TypeError_restricted_property key)
      end
  end.
Proof.
  unfold Js.Set_. rewrite find_property_chain.
  destruct (Js.own_property key (Js.properties o)); [reflexivity|].
  destruct (inherited (Js.prototype o) key) as [[h d]|] eqn:E; [|reflexivity].
  apply inherited_holder in E.
  destruct h; [congruence| | |]; reflexivity.
Qed.

(** An assignment that completes is seen by the next read of the same key. *)
Lemma Get_Set_same o o' key f :
  Js.Set_ o key f = inl o' -> Js.Get o' key = inl (Closure f).
Proof.
  rewrite Set_unfold, Get_unfold.
  destruct (Js.own_property key (Js.properties o)) as [g|] eqn:Hown.
  - intros H. inversion H; subst o'; clear H. simpl.
    rewrite (own_property_update_same key f g); [reflexivity | assumption].
  - destruct (inherited (Js.prototype o) key) as [[h [v [|]|[|]]]|] eqn:Hinh;
      intros H; inversion H; subst o'; clear H; simpl.
    + rewrite own_property_create_same by assumption. reflexivity.
    + apply inherited_proto_accessor in Hinh. subst key.
      rewrite Hown, inherited_proto. reflexivity.
    + rewrite own_property_create_same by assumption. reflexivity.
Qed.

(** An assignment under a key other than [__proto__] keeps the prototype
    and every other key. *)
Lemma Set_prototype o o' key f :
  key <> "__proto__" -> Js.Set_ o key f = inl o' -> Js.prototype o' = Js.prototype o.
Proof.
  intros Hkey. rewrite Set_unfold.
  destruct (Js.own_property key (Js.properties o)) as [g|].
  - intros H. inversion H. reflexivity.
  - destruct (inherited (Js.prototype o) key) as [[h [v [|]|[|]]]|] eqn:Hinh;
      intros H; inversion H; try reflexivity.
    apply inherited_proto_accessor in Hinh. contradiction.
Qed.

Lemma Get_Set_other o o' key m f :
  key <> "__proto__" -> m <> key ->
  Js.Set_ o key f = inl o' -> Js.Get o' m = Js.Get o m.
Proof.
  intros Hkey Hm Hset.
  pose proof (Set_prototype o o' key f Hkey Hset) as Hproto.
  rewrite !Get_unfold, Hproto. unfold Js.prototype_value. rewrite Hproto.
  replace (Js.own_property m (Js.properties o'))
    with (Js.own_property m (Js.properties o)); [reflexivity|].
  revert Hset. rewrite Set_unfold.
  destruct (Js.own_property key (Js.properties o)) as [g|].
  - intros H. inversion H. simpl.
    rewrite own_property_update_other by assumption. reflexivity.
  - destruct (inherited (Js.prototype o) key) as [[h [v [|]|[|]]]|] eqn:Hinh;
      intros H; inversion H; simpl;
      rewrite ?own_property_create_other by assumption; reflexivity.
Qed.

(** Under %Object.prototype% every assignment completes. *)
Lemma Set_plain_total o key f :
  Js.prototype o = Js.ProtoObject -> exists o', Js.Set_ o key f = inl o'.
Proof.
  intros Hproto. rewrite Set_unfold, Hproto.
  destruct (Js.own_property key (Js.properties o)); [eauto|].
  destruct (inherited_plain key) as [E|[(h & v & E)|E]]; rewrite E; eauto.
Qed.

End PropertyAccess.

(** ** The registry: [defineCommand] and [commands[name]] *)

Section Registry.

Implicit Types (w : World) (name m : string) (f g : CommandFunction).

Lemma defineCommand_lookup w w' name f :
  defineCommand name f w = Normal tt w' ->
  lookup name w' = Normal (Closure f) w'.
Proof.
  unfold defineCommand, lookup.
  destruct (Js.Set_ (commands w) name f) as [o|e] eqn:E; [|discriminate].
  intros H. inversion H; subst w'; clear H. simpl.
  rewrite (Get_Set_same _ _ _ _ E). reflexivity.
Qed.

Lemma defineCommand_stdout w w' name f :
  defineCommand name f w = Normal tt w' -> stdout w' = stdout w.
Proof.
  unfold defineCommand.
  destruct (Js.Set_ (commands w) name f); [|discriminate].
  intros H. inversion H. reflexivity.
Qed.

(** While the prototype of [commands] is %Object.prototype%, registration
    under any name completes and is seen by the next lookup. *)
Lemma register_lookup_plain w name f :
  Js.prototype (commands w) = Js.ProtoObject ->
  exists w', defineCommand name f w = Normal tt w'
             /\ lookup name w' = Normal (Closure f) w'.
Proof.
  intros Hproto.
  destruct (Set_plain_total (commands w) name f Hproto) as [o Ho].
  exists (mkWorld o (stdout w)).
  assert (Hdef : defineCommand name f w = Normal tt (mkWorld o (stdout w)))
    by (unfold defineCommand; rewrite Ho; reflexivity).
  split; [exact Hdef | exact (defineCommand_lookup _ _ _ _ Hdef)].
Qed.

(** Registering twice: the second handler is the one found. *)
Lemma reregister_lookup_plain w name f g :
  Js.prototype (commands w) = Js.ProtoObject ->
  exists w' w'', defineCommand name f w = Normal tt w'
                 /\ defineCommand name g w' = Normal tt w''
                 /\ lookup name w'' = Normal (Closure g) w''.
Proof.
  intros Hproto.
  destruct (register_lookup_plain w name f Hproto) as (w' & Hdef & Hlook).
  exists w'.
  assert (Hsecond : exists w'', defineCommand name g w' = Normal tt w'').
  { unfold lookup in Hlook. unfold defineCommand.
    destruct (Js.Get (commands w') name) as [v|e] eqn:Hget; [|discriminate].
    inversion Hlook; subst v. clear Hlook.
    rewrite Get_unfold in Hget. rewrite Set_unfold.
    destruct (Js.own_property name (Js.properties (commands w'))) as [h|] eqn:Hown;
      [eauto|].
    (* no own property: the first registration went to the prototype slot *)
    destruct (String.eqb_spec name "__proto__") as [->|Hne].
    - rewrite inherited_proto. eauto.
    - unfold defineCommand in Hdef.
      destruct (Js.Set_ (commands w) name f) as [o|e] eqn:Hset; [|discriminate].
      inversion Hdef; subst w'; simpl in *.
      rewrite (Set_prototype _ _ _ _ Hne Hset), Hproto in *.
      destruct (inherited_plain name) as [E|[(h & v & E)|E]]; rewrite E in *; eauto. }
  destruct Hsecond as [w'' Hw''].
  exists w''. repeat split; [assumption.. | exact (defineCommand_lookup _ _ _ _ Hw'')].
Qed.

(** Registration under a name other than [__proto__] leaves every other
    lookup, and the output, as they were. *)
Lemma defineCommand_frame w w' name m f :
  name <> "__proto__" -> m <> name ->
  defineCommand name f w = Normal tt w' ->
  Js.Get (commands w') m = Js.Get (commands w) m /\ stdout w' = stdout w.
Proof.
  intros Hname Hm Hdef. split; [|exact (defineCommand_stdout _ _ _ _ Hdef)].
  unfold defineCommand in Hdef.
  destruct (Js.Set_ (commands w) name f) as [o|e] eqn:Hset; [|discriminate].
  inversion Hdef; subst w'; simpl.
  exact (Get_Set_other _ _ _ _ _ Hname Hm Hset).
Qed.

Lemma module_load : defineCommand "hw" hw initial = Normal tt loaded.
Proof. reflexivity. Qed.

End Registry.

(** ** The parser *)

Section Parser.

Import ParseArgs.

#[local] Arguments ascii_dec : simpl never.

Lemma prefix_dash (c : ascii) (s : string) :
  String.prefix "-" (String c s) = Ascii.eqb c "-".
Proof.
  change (String.prefix "-" (String c s))
    with (if ascii_dec "-" c then String.prefix EmptyString s else false).
  destruct (ascii_dec "-" c) as [<-|Hne]; [destruct s; reflexivity|].
  symmetry. apply Ascii.eqb_neq. congruence.
Qed.

Lemma prefix_dash_dash (c : ascii) (s : string) :
  String.prefix "--" (String c s) = Ascii.eqb c "-" && String.prefix "-" s.
Proof.
  change (String.prefix "--" (String c s))
    with (if ascii_dec "-" c then String.prefix "-" s else false).
  destruct (ascii_dec "-" c) as [<-|Hne].
  - reflexivity.
  - symmetry. apply andb_false_iff. left. apply Ascii.eqb_neq. congruence.
Qed.

Lemma option_like_shape (tok : string) :
  option_like tok = true ->
  exists d s, tok = String "-" (String d s) /\ (d <> "-"%char \/ s <> EmptyString).
Proof.
  unfold option_like.
  destruct tok as [|c [|d s]]; try discriminate.
  - rewrite prefix_dash. simpl. rewrite andb_false_r. discriminate.
  - rewrite prefix_dash.
    destruct (Ascii.eqb_spec c "-") as [->|]; [|discriminate].
    simpl. intros H. exists d, s. split; [reflexivity|].
    destruct (Ascii.eqb_spec d "-") as [->|]; [|left; assumption].
    right. destruct s; [discriminate | congruence].
Qed.

Lemma plain_shape (tok : string) :
  plain tok = true ->
  tok = EmptyString \/ tok = "-" \/ exists c s, tok = String c s /\ c <> "-"%char.
Proof.
  unfold plain, option_like.
  destruct tok as [|c s]; [auto|].
  destruct (Ascii.eqb_spec c "-") as [->|Hc]; [|eauto 6].
  destruct s as [|d s]; [auto|].
  rewrite prefix_dash. simpl.
  destruct (if Ascii.eqb d "-" then String.eqb s EmptyString else false); discriminate.
Qed.

Lemma argsToTokens_terminator (rest : list string) :
  argsToTokens ("--" :: rest) = option_terminator :: map positional rest.
Proof. rewrite argsToTokens_equation_2. reflexivity. Qed.

Lemma argsToTokens_plain (arg : string) (rest : list string) :
  plain arg = true ->
  argsToTokens (arg :: rest) = positional arg :: argsToTokens rest.
Proof.
  intros H. rewrite argsToTokens_equation_2.
  destruct (plain_shape arg H) as [->|[->|(c & s & -> & Hc)]]; try reflexivity.
  assert (Hd : Ascii.eqb c "-" = false) by (apply Ascii.eqb_neq; assumption).
  unfold isLoneShortOption, isShortOptionGroup, isShortOptionAndValue,
    isLoneLongOption, isLongOptionAndValue, charAt.
  rewrite prefix_dash_dash. simpl. rewrite Hd. simpl.
  rewrite !andb_false_r. simpl.
  destruct (sumbool_of_bool _) as [E|E].
  - destruct (String.length s <=? 1); discriminate.
  - destruct (String.length s <=? 1); reflexivity.
Qed.

Lemma argsToTokens_option_like (arg : string) (rest : list string) :
  option_like arg = true ->
  exists name rawName value inlineValue tokens,
    argsToTokens (arg :: rest) = option_ name rawName value inlineValue :: tokens.
Proof.
  intros H. destruct (option_like_shape arg H) as (d & s & -> & Hds).
  rewrite argsToTokens_equation_2.
  destruct (Ascii.eqb_spec d "-") as [->|Hd].
  - (* a long option: "--" followed by at least one character *)
    destruct Hds as [Hd|Hs]; [congruence|].
    destruct s as [|e s]; [congruence|].
    replace (String.eqb (String "-" (String "-" (String e s))) "--") with false
      by (simpl; reflexivity).
    change (isLoneShortOption (String "-" (String "-" (String e s)))) with false.
    destruct (sumbool_of_bool _) as [E|E]; [discriminate|].
    change (isShortOptionAndValue (String "-" (String "-" (String e s)))) with false.
    unfold isLoneLongOption, isLongOptionAndValue.
    destruct (includes_from _ "=" 3); simpl; eauto 10.
  - apply Ascii.eqb_neq in Hd.
    replace (String.eqb (String "-" (String d s)) "--") with false
      by (simpl; rewrite Hd; reflexivity).
    destruct s as [|e s].
    + (* a lone short option *)
      replace (isLoneShortOption (String "-" (String d EmptyString))) with true
        by (unfold isLoneShortOption, charAt; simpl; rewrite Hd; reflexivity).
      eauto 10.
    + (* a short group: its first letter is consumed as a short option *)
      change (isLoneShortOption (String "-" (String d (String e s)))) with false.
      destruct (sumbool_of_bool _) as [E|E].
      * change (expand_group (String "-" (String d (String e s))))
          with (String "-" (String d EmptyString)
                  :: expand_group (String "-" (String e s))).
        simpl app. rewrite argsToTokens_equation_2.
        replace (String.eqb (String "-" (String d EmptyString)) "--") with false
          by (simpl; rewrite Hd; reflexivity).
        replace (isLoneShortOption (String "-" (String d EmptyString))) with true
          by (unfold isLoneShortOption, charAt; simpl; rewrite Hd; reflexivity).
        eauto 10.
      * exfalso. revert E. unfold isShortOptionGroup, charAt. simpl.
        rewrite Hd. discriminate.
Qed.

Lemma processTokens_positionals (values : list string) :
  processTokens (map positional values) = inl values.
Proof.
  induction values as [|v values IH]; simpl; [reflexivity|].
  rewrite IH. reflexivity.
Qed.

(** With only positional-looking tokens the vector is returned as it is. *)
Lemma parseArgs_plain (args : list string) :
  forallb plain args = true -> parseArgs args = inl args.
Proof.
  unfold parseArgs.
  induction args as [|arg args IH]; simpl; intros H.
  - rewrite argsToTokens_equation_1. reflexivity.
  - apply andb_prop in H. destruct H as [Harg Hargs].
    rewrite argsToTokens_plain by assumption. simpl.
    rewrite IH by assumption. reflexivity.
Qed.

(** A bare [--] is dropped and everything after it is positional. *)
Lemma parseArgs_terminator (before after : list string) :
  forallb plain before = true ->
  parseArgs (before ++ "--" :: after) = inl (before ++ after).
Proof.
  unfold parseArgs.
  induction before as [|arg before IH]; simpl; intros H.
  - rewrite argsToTokens_terminator. simpl. apply processTokens_positionals.
  - apply andb_prop in H. destruct H as [Harg Hbefore].
    rewrite argsToTokens_plain by assumption. simpl.
    rewrite IH by assumption. reflexivity.
Qed.

(** The first option-like token that is not shielded by a [--] makes the
    parse fail. *)
Lemma parseArgs_option_like (before : list string) (tok : string) (after : list string) :
  forallb plain before = true -> option_like tok = true ->
  exists rawName,
    parseArgs (before ++ tok :: after) = inr (ERR_PARSE_ARGS_UNKNOWN_OPTION rawName).
Proof.
  unfold parseArgs. intros Hbefore Htok.
  induction before as [|arg before IH]; simpl.
  - destruct (argsToTokens_option_like tok after Htok)
      as (name & rawName & value & inlineValue & tokens & E).
    rewrite E. simpl. eauto.
  - simpl in Hbefore. apply andb_prop in Hbefore. destruct Hbefore as [Harg Hbefore].
    rewrite argsToTokens_plain by assumption. simpl.
    destruct (IH Hbefore) as [rawName E]. rewrite E. eauto.
Qed.

End Parser.

(** ** The dispatcher *)

Section Dispatcher.

Implicit Types (w : World) (f : CommandFunction).

Lemma for_of_console_log (names : list string) (line : string -> string) w :
  for_of names (fun name => console_log (line name)) w
  = Normal tt (mkWorld (commands w) (stdout w ++ map line names)).
Proof.
  revert w. induction names as [|name names IH]; intros w; simpl.
  - unfold ret. rewrite app_nil_r. destruct w; reflexivity.
  - unfold bind, console_log. rewrite IH. simpl.
    rewrite <- app_assoc. reflexivity.
Qed.

(** When [commands[command]] is [undefined], the listing is printed and the
    call returns; no value is called. *)
Lemma runCommand_undefined w (command : option string) (args : list string) :
  Js.Get (commands w) (ToPropertyKey command) = inl Undefined ->
  runCommand command args w
  = Normal tt (mkWorld (commands w) (stdout w ++ listing (commands w))).
Proof.
  intros Hget. unfold runCommand, bind, lookup. rewrite Hget.
  unfold console_log at 1. cbv beta iota.
  rewrite for_of_console_log. simpl.
  rewrite <- app_assoc. reflexivity.
Qed.

(** When [commands[command]] is anything else, that value is called with
    [args]. *)
Lemma runCommand_defined w (command : option string) (args : list string) (v : Value) :
  Js.Get (commands w) (ToPropertyKey command) = inl v -> v <> Undefined ->
  runCommand command args w = call v args w.
Proof.
  intros Hget Hv. unfold runCommand, bind, lookup. rewrite Hget.
  destruct v; [congruence | reflexivity..].
Qed.

Lemma dispatch_arguments w (c : option string) (args : list string) :
  args <> [] ->
  dispatch (mkCommand c args) w = runCommand (nth_error args 1) args w.
Proof.
  intros Hargs. unfold dispatch. simpl.
  destruct args; [congruence | reflexivity].
Qed.

(** The branch of line 98: with no [args] at all, [commands.help] is called
    with the empty array. *)
Lemma dispatch_no_arguments w (c : option string) f :
  Js.Get (commands w) "help" = inl (Closure f) ->
  dispatch (mkCommand c []) w = call (Closure f) [] w.
Proof.
  intros Hget. unfold dispatch, bind, lookup. simpl. rewrite Hget. reflexivity.
Qed.

(** The program itself registers no "help": in its registry the branch of
    line 98 calls [undefined]. *)
Lemma dispatch_no_arguments_loaded (c : option string) :
  dispatch (mkCommand c []) loaded = Throw TypeError_not_a_function loaded.
Proof. reflexivity. Qed.

(** [args] is empty only for a vector with at most one positional, which a
    run under the host never has: [Bun.argv] starts with the runtime and
    the script. *)
Lemma parseCommand_args_empty (argv : list string) (c : Command) w w' :
  parseCommand argv w = Normal c w' -> args c = [] ->
  exists positionals, ParseArgs.parseArgs argv = inl positionals
                      /\ length positionals <= 1.
Proof.
  unfold parseCommand.
  destruct (ParseArgs.parseArgs argv) as [positionals|e]; [|discriminate].
  intros H Hargs. inversion H; subst c; clear H. simpl in Hargs.
  exists positionals. split; [reflexivity|].
  destruct positionals as [|p [|q ps]]; simpl in *; [lia | lia | discriminate].
Qed.

(** One positional in [args]: index 1 is [undefined], and unless a command
    is registered under the name "undefined" the listing is printed. *)
Lemma dispatch_single_positional w (c : option string) (tok : string) :
  Js.Get (commands w) "undefined" = inl Undefined ->
  dispatch (mkCommand c [tok]) w
  = Normal tt (mkWorld (commands w) (stdout w ++ listing (commands w))).
Proof.
  intros Hget. rewrite dispatch_arguments by discriminate.
  apply runCommand_undefined. exact Hget.
Qed.

End Dispatcher.

(** ** The claims *)

Section Claims.

Implicit Types (w : World) (f g h : CommandFunction).

(** C1.  A run with nothing after the runtime and script tokens does not
    reach the [help] branch: [parseCommand] is given the whole of
    [Bun.argv], so [args] holds the script token, line 97 sees length 1,
    line 100 reads the absent index 1, and the listing is printed.  This is
    so even when a handler [f] is registered under "help"; [f] is not
    called. *)
Theorem no_argument_run_prints_listing f :
  let w := mkWorld (Js.mkObject [("hw", hw); ("help", f)] Js.ProtoObject) [] in
  defineCommand "help" f loaded = Normal tt w
  /\ lookup "help" w = Normal (Closure f) w
  /\ main ["bun"; "index.ts"] w
     = Normal tt (mkWorld (commands w) ["Available commands:"; "- hw"; "- help"])
  /\ run ["bun"; "index.ts"]
     = Normal tt (mkWorld (commands loaded) ["Available commands:"; "- hw"]).
Proof.
  cbv zeta. repeat split; reflexivity.
Qed.

(** C2.  When the parsed command carries positional arguments, the name
    looked up is the element at index 1 of [args], and the handler found is
    called with the whole of [args]: what happens is what [f args] does. *)
Theorem dispatch_calls_handler_of_index_1 w (c : option string) (args : list string) f :
  args <> [] ->
  lookup (ToPropertyKey (nth_error args 1)) w = Normal (Closure f) w ->
  dispatch (mkCommand c args) w
  = match f args with
    | (lines, None) => Normal tt (mkWorld (commands w) (stdout w ++ lines))
    | (lines, Some e) => Throw e (mkWorld (commands w) (stdout w ++ lines))
    end.
Proof.
  intros Hargs Hlookup.
  rewrite dispatch_arguments by assumption.
  unfold lookup in Hlookup.
  destruct (Js.Get (commands w) (ToPropertyKey (nth_error args 1))) as [v|e] eqn:Hget;
    [|discriminate].
  inversion Hlookup; subst v.
  rewrite (runCommand_defined _ _ _ _ Hget) by discriminate.
  unfold call. destruct (f args) as [lines [e|]]; reflexivity.
Qed.

Lemma dispatch_calls_handler_of_index_1_witness :
  ["index.ts"; "hw"] <> []
  /\ dispatch (mkCommand (Some "bun") ["index.ts"; "hw"]) loaded
     = Normal tt (mkWorld (commands loaded) ["Hello world"]).
Proof.
  split; [discriminate|].
  exact (dispatch_calls_handler_of_index_1 loaded (Some "bun") ["index.ts"; "hw"] hw
           ltac:(discriminate) eq_refl).
Defined.

(** C3.  A name that is not registered but is a property of
    %Object.prototype% is not answered with the listing: [commands[name]]
    finds the inherited value, which is not [undefined], and line 91 calls
    it.  For "toString" the run prints nothing and enters
    [Object.prototype.toString]; for "__proto__" the value is the prototype
    object itself and the call throws. *)
Theorem inherited_name_is_called :
  ~ In "toString" (Js.keys (commands loaded))
  /\ run ["bun"; "index.ts"; "toString"]
     = Enter (OfObjectPrototype "toString") ["index.ts"; "toString"] loaded
  /\ ~ In "__proto__" (Js.keys (commands loaded))
  /\ run ["bun"; "index.ts"; "__proto__"] = Throw TypeError_not_a_function loaded.
Proof.
  repeat split; try reflexivity.
  all: simpl; intros [H|[]]; discriminate.
Qed.

(** C4 as stated fails.  A token can begin with the option marker and the
    parse still succeed: the lone "-" is a positional, and so is any token
    after a bare "--". *)
Lemma dash_tokens_can_be_positionals :
  ~ (forall (argv : list string) w,
       (exists tok, In tok argv /\ begins_with_dash tok = true) ->
       exists rawName,
         parseCommand argv w = Throw (ERR_PARSE_ARGS_UNKNOWN_OPTION rawName) w)
  /\ parseCommand ["-"] initial = Normal (mkCommand (Some "-") []) initial
  /\ parseCommand ["--"; "--bogus"] initial
     = Normal (mkCommand (Some "--bogus") []) initial.
Proof.
  split; [|split; reflexivity].
  intros H.
  destruct (H ["--"; "--bogus"] initial) as [rawName E].
  - exists "--bogus". split; [right; left; reflexivity | reflexivity].
  - discriminate E.
Qed.

(** C4, amended.  If some token that begins with a dash, has a second
    character and is not the bare "--" comes before any bare "--", the
    parse fails with the unknown-option error, and the world is as it
    was. *)
Theorem option_token_fails_parse (before : list string) (tok : string)
  (after : list string) w :
  ~ In "--" before -> option_like tok = true ->
  exists rawName,
    parseCommand (before ++ tok :: after) w
    = Throw (ERR_PARSE_ARGS_UNKNOWN_OPTION rawName) w.
Proof.
  intros Hbefore Htok.
  assert (Hparse : exists rawName,
    ParseArgs.parseArgs (before ++ tok :: after)
    = inr (ERR_PARSE_ARGS_UNKNOWN_OPTION rawName)).
  { induction before as [|arg before IH].
    - exact (parseArgs_option_like [] tok after eq_refl Htok).
    - destruct (option_like arg) eqn:Harg.
      + exact (parseArgs_option_like [] arg (before ++ tok :: after) eq_refl Harg).
      + assert (Hplain : plain arg = true).
        { unfold plain. rewrite Harg. simpl.
          destruct (String.eqb_spec arg "--") as [->|]; [|reflexivity].
          exfalso. apply Hbefore. left. reflexivity. }
        destruct IH as [rawName E]; [intros Hin; apply Hbefore; right; exact Hin|].
        exists rawName. revert E. unfold ParseArgs.parseArgs. simpl.
        rewrite (argsToTokens_plain _ _ Hplain). simpl.
        intros ->. reflexivity. }
  destruct Hparse as [rawName E]. exists rawName.
  unfold parseCommand. rewrite E. reflexivity.
Qed.

Lemma option_token_fails_parse_witness :
  exists rawName,
    parseCommand ["--bogus"] initial
    = Throw (ERR_PARSE_ARGS_UNKNOWN_OPTION rawName) initial.
Proof.
  exact (option_token_fails_parse [] "--bogus" [] initial
           (fun H : In "--" [] => H) eq_refl).
Defined.

(** C5.  With the runtime and script tokens in front, the argument "hw"
    prints exactly the line [Hello world] and the run returns; "hw" is the
    only command registered when the dispatch happens. *)
Theorem hw_run_prints_hello_world (runtime script : string) :
  plain runtime = true -> plain script = true ->
  run [runtime; script; "hw"] = Normal tt (mkWorld (commands loaded) ["Hello world"])
  /\ Js.keys (commands loaded) = ["hw"].
Proof.
  intros Hruntime Hscript. split; [|reflexivity].
  unfold run, index_ts, bind. rewrite module_load.
  unfold main, bind, parseCommand.
  rewrite parseArgs_plain by (simpl; rewrite Hruntime, Hscript; reflexivity).
  reflexivity.
Qed.

Lemma hw_run_prints_hello_world_witness :
  run ["/usr/local/bin/bun"; "/app/index.ts"; "hw"]
  = Normal tt (mkWorld (commands loaded) ["Hello world"])
  /\ Js.keys (commands loaded) = ["hw"].
Proof.
  exact (hw_run_prints_hello_world "/usr/local/bin/bun" "/app/index.ts" eq_refl eq_refl).
Defined.

(** C6.  Registration followed by lookup does not return the handler in
    every registry: once a handler [f] has been registered under
    "__proto__", [f] is the prototype of [commands], its read-only [name]
    is inherited, and registering [h] under "name" throws; the lookup
    yields the inherited primitive, not [h]. *)
Theorem register_lookup_under_function_prototype f h :
  let w := mkWorld (Js.mkObject [("hw", hw)] (Js.ProtoFunction f)) [] in
  defineCommand "__proto__" f loaded = Normal tt w
  /\ defineCommand "name" h w = Throw (TypeError_readonly_property "name") w
  /\ lookup "name" w = Normal Primitive w.
Proof.
  cbv zeta. repeat split; reflexivity.
Qed.

(** C7.  Registering a name twice is not always silent: under the same
    function prototype the first of two registrations under "length"
    already throws, and neither handler is found afterwards. *)
Theorem reregister_under_function_prototype f h1 h2 :
  let w := mkWorld (Js.mkObject [("hw", hw)] (Js.ProtoFunction f)) [] in
  defineCommand "__proto__" f loaded = Normal tt w
  /\ (defineCommand "length" h1 ;; defineCommand "length" h2 ;; lookup "length") w
     = Throw (TypeError_readonly_property "length") w
  /\ lookup "length" w = Normal Primitive w.
Proof.
  cbv zeta. repeat split; reflexivity.
Qed.

(** C8.  [parseCommand ["hw"]] has command "hw" and no arguments; in general
    the command is the first positional and the arguments are the rest, and
    a vector of plain tokens is its own list of positionals. *)
Theorem parseCommand_splits_positionals w :
  parseCommand ["hw"] w = Normal (mkCommand (Some "hw") []) w
  /\ (forall argv positionals,
        ParseArgs.parseArgs argv = inl positionals ->
        parseCommand argv w
        = Normal (mkCommand (hd_error positionals) (tl positionals)) w)
  /\ (forall first rest,
        forallb plain (first :: rest) = true ->
        parseCommand (first :: rest) w = Normal (mkCommand (Some first) rest) w).
Proof.
  split; [reflexivity|]. split.
  - intros argv positionals E. unfold parseCommand. rewrite E. reflexivity.
  - intros first rest Hplain. unfold parseCommand.
    rewrite parseArgs_plain by assumption. reflexivity.
Qed.

Lemma parseCommand_splits_positionals_witness :
  parseCommand ["bun"; "-"; "hw"] initial
  = Normal (mkCommand (Some "bun") ["-"; "hw"]) initial
  /\ parseCommand ["bun"; "--"; "-x"] initial
     = Normal (mkCommand (Some "bun") ["-x"]) initial.
Proof.
  destruct (parseCommand_splits_positionals initial) as (_ & Hgeneral & Hplain).
  split.
  - exact (Hplain "bun" ["-"; "hw"] eq_refl).
  - exact (Hgeneral ["bun"; "--"; "-x"] ["bun"; "-x"] eq_refl).
Defined.

(** C9.  With exactly one element in [args] the dispatch step returns:
    index 1 is absent, the lookup under the key "undefined" finds nothing,
    and the listing is printed; no value is called and nothing is thrown.
    This holds in every registry without a command named "undefined", and
    so in the registry of the program, where [hw] is not called either. *)
Theorem single_positional_prints_listing :
  (forall w (c : option string) (tok : string),
     lookup "undefined" w = Normal Undefined w ->
     nth_error [tok] 1 = None
     /\ dispatch (mkCommand c [tok]) w
        = Normal tt (mkWorld (commands w) (stdout w ++ listing (commands w))))
  /\ (forall (c : option string) (tok : string),
        (defineCommand "hw" hw ;; dispatch (mkCommand c [tok])) initial
        = Normal tt (mkWorld (Js.mkObject [("hw", hw)] Js.ProtoObject)
                             ["Available commands:"; "- hw"])).
Proof.
  split; [|reflexivity].
  intros w c tok Hlookup. split; [reflexivity|].
  apply dispatch_single_positional.
  unfold lookup in Hlookup.
  destruct (Js.Get (commands w) "undefined") as [v|e]; [|discriminate].
  inversion Hlookup. reflexivity.
Qed.

Lemma single_positional_prints_listing_witness :
  let w := mkWorld (Js.mkObject [("hw", hw); ("help", hw)] Js.ProtoObject) [] in
  lookup "undefined" w = Normal Undefined w
  /\ dispatch (mkCommand (Some "bun") ["index.ts"]) w
     = Normal tt (mkWorld (commands w) ["Available commands:"; "- hw"; "- help"]).
Proof.
  cbv zeta. split; [reflexivity|].
  exact (proj2 (proj1 single_positional_prints_listing
                  (mkWorld (Js.mkObject [("hw", hw); ("help", hw)] Js.ProtoObject) [])
                  (Some "bun") "index.ts" eq_refl)).
Defined.

(** C10.  Registration under "__proto__" changes lookups under other names
    and adds no key: before it [commands["call"]] is [undefined], after it
    [Function.prototype.call] is found. *)
Theorem register_proto_changes_other_lookups f :
  "call" <> "__proto__"
  /\ lookup "call" loaded = Normal Undefined loaded
  /\ exists w,
       defineCommand "__proto__" f loaded = Normal tt w
       /\ lookup "call" w = Normal (Builtin (OfFunctionPrototype "call")) w
       /\ Js.keys (commands w) = Js.keys (commands loaded).
Proof.
  split; [discriminate|]. split; [reflexivity|].
  eexists. repeat split; reflexivity.
Qed.

End Claims.

(** * Further properties of the code *)

(** ** The keys of the registry *)

Section RegistryKeys.

Implicit Types (key k m : string) (f g : CommandFunction) (o : Js.Object).
Implicit Types ps : list (string * CommandFunction).

Lemma array_index_canonical key (i : N) :
  Js.array_index key = Some i -> key = NilZero.string_of_uint (N.to_uint i).
Proof.
  unfold Js.array_index.
  destruct (NilEmpty.uint_of_string key) as [u|]; [|discriminate].
  destruct (String.eqb _ key && _) eqn:E; [|discriminate].
  intros H. inversion H; subst i. apply andb_prop in E. destruct E as [E _].
  symmetry. apply String.eqb_eq. exact E.
Qed.

Lemma array_index_inj k1 k2 (i : N) :
  Js.array_index k1 = Some i -> Js.array_index k2 = Some i -> k1 = k2.
Proof.
  intros H1 H2.
  rewrite (array_index_canonical _ _ H1), (array_index_canonical _ _ H2).
  reflexivity.
Qed.

Lemma own_property_None key ps :
  Js.own_property key ps = None <-> ~ In key (map fst ps).
Proof.
  induction ps as [|[k h] ps IH]; simpl; [tauto|].
  destruct (String.eqb_spec k key) as [->|Hne].
  - split; [discriminate | intros H; exfalso; apply H; left; reflexivity].
  - rewrite IH. tauto.
Qed.

Lemma own_property_In key ps :
  In key (map fst ps) -> exists f, Js.own_property key ps = Some f.
Proof.
  intros Hin. destruct (Js.own_property key ps) as [f|] eqn:E; [eauto|].
  apply own_property_None in E. contradiction.
Qed.

Lemma keys_update_property key f ps :
  map fst (Js.update_property key f ps) = map fst ps.
Proof.
  induction ps as [|[k h] ps IH]; simpl; [reflexivity|].
  destruct (String.eqb k key); simpl; [reflexivity|].
  rewrite IH. reflexivity.
Qed.

Lemma keys_insert_index_In (i : N) key k f ps :
  In k (map fst (Js.insert_index i key f ps)) <-> k = key \/ In k (map fst ps).
Proof.
  induction ps as [|[k' h] ps IH]; simpl.
  - intuition congruence.
  - destruct (Js.array_index k') as [j|]; [destruct (j <? i)%N|]; simpl;
      rewrite ?IH; intuition congruence.
Qed.

Lemma keys_create_property_In key k f ps :
  In k (map fst (Js.create_property key f ps)) <-> k = key \/ In k (map fst ps).
Proof.
  unfold Js.create_property. destruct (Js.array_index key) as [i|].
  - apply keys_insert_index_In.
  - rewrite map_app, in_app_iff. simpl. intuition congruence.
Qed.

Lemma NoDup_insert_index (i : N) key f ps :
  ~ In key (map fst ps) -> NoDup (map fst ps) ->
  NoDup (map fst (Js.insert_index i key f ps)).
Proof.
  induction ps as [|[k h] ps IH]; simpl; intros Hnot Hnodup.
  - constructor; [tauto | constructor].
  - assert (Hfresh : NoDup (key :: k :: map fst ps))
      by (constructor; [simpl; tauto | assumption]).
    destruct (Js.array_index k) as [j|]; [destruct (j <? i)%N|]; simpl; try exact Hfresh.
    inversion Hnodup; subst. constructor.
    + rewrite keys_insert_index_In. intuition congruence.
    + apply IH; tauto.
Qed.

Lemma NoDup_create_property key f ps :
  ~ In key (map fst ps) -> NoDup (map fst ps) ->
  NoDup (map fst (Js.create_property key f ps)).
Proof.
  intros Hnot Hnodup. unfold Js.create_property.
  destruct (Js.array_index key) as [i|].
  - apply NoDup_insert_index; assumption.
  - rewrite map_app. simpl. apply NoDup_app; [assumption | repeat constructor; tauto |].
    intros a Ha [<-|[]]. contradiction.
Qed.

Lemma key_before_index_index k1 k2 (i j : N) :
  Js.array_index k1 = Some i -> Js.array_index k2 = Some j ->
  key_before k1 k2 <-> (i < j)%N.
Proof. intros H1 H2. unfold key_before. rewrite H1, H2. reflexivity. Qed.

Lemma key_before_not_index k1 k2 :
  Js.array_index k2 = None -> key_before k1 k2.
Proof.
  intros H2. unfold key_before. rewrite H2.
  destruct (Js.array_index k1); exact I.
Qed.

Lemma Forall_keys_insert_index (P : string -> Prop) (i : N) key f ps :
  P key -> Forall P (map fst ps) -> Forall P (map fst (Js.insert_index i key f ps)).
Proof.
  intros Hkey Hps. apply Forall_forall. intros k Hk.
  apply keys_insert_index_In in Hk. destruct Hk as [->|Hk]; [assumption|].
  rewrite Forall_forall in Hps. auto.
Qed.

Lemma ordered_insert_index (i : N) key f ps :
  Js.array_index key = Some i -> ~ In key (map fst ps) ->
  ForallOrdPairs key_before (map fst ps) ->
  ForallOrdPairs key_before (map fst (Js.insert_index i key f ps)).
Proof.
  intros Hkey. induction ps as [|[k h] ps IH]; simpl; intros Hnot Hord.
  - constructor; constructor.
  - inversion Hord as [|? ? Hk Hps]; subst.
    destruct (Js.array_index k) as [j|] eqn:Hj.
    + destruct (N.ltb_spec j i) as [Hlt|Hge]; simpl.
      * constructor.
        -- apply Forall_keys_insert_index; [|assumption].
           apply (key_before_index_index _ _ _ _ Hj Hkey). exact Hlt.
        -- apply IH; tauto.
      * assert (Hij : (i < j)%N).
        { destruct (N.eq_dec i j) as [->|]; [|lia].
          exfalso. apply Hnot. left. exact (array_index_inj _ _ _ Hj Hkey). }
        constructor; [|assumption].
        constructor; [apply (key_before_index_index _ _ _ _ Hkey Hj); exact Hij|].
        rewrite Forall_forall in Hk |- *. intros l Hl. specialize (Hk l Hl).
        unfold key_before in *. rewrite Hkey. rewrite Hj in Hk.
        destruct (Js.array_index l); [lia | exact I].
    + simpl. constructor; [|assumption].
      constructor; [unfold key_before; rewrite Hkey, Hj; exact I|].
      rewrite Forall_forall in Hk |- *. intros l Hl. specialize (Hk l Hl).
      unfold key_before in *. rewrite Hkey. rewrite Hj in Hk.
      destruct (Js.array_index l); [contradiction | exact I].
Qed.

Lemma ordered_append key (ks : list string) :
  Js.array_index key = None ->
  ForallOrdPairs key_before ks -> ForallOrdPairs key_before (ks ++ [key]).
Proof.
  intros Hkey. induction ks as [|k ks IH]; simpl; intros Hord.
  - constructor; constructor.
  - inversion Hord; subst. constructor; [|auto].
    apply Forall_app. split; [assumption|].
    constructor; [apply key_before_not_index; assumption | constructor].
Qed.

Lemma ordered_create_property key f ps :
  ~ In key (map fst ps) ->
  ForallOrdPairs key_before (map fst ps) ->
  ForallOrdPairs key_before (map fst (Js.create_property key f ps)).
Proof.
  intros Hnot Hord. unfold Js.create_property.
  destruct (Js.array_index key) as [i|] eqn:Hkey.
  - apply ordered_insert_index; assumption.
  - rewrite map_app. apply ordered_append; assumption.
Qed.

(** The three ways an assignment can complete. *)
Lemma Set_cases o o' key f :
  Js.Set_ o key f = inl o' ->
  In key (Js.keys o)
  /\ o' = Js.mkObject (Js.update_property key f (Js.properties o)) (Js.prototype o)
  \/ (~ In key (Js.keys o) /\ key <> "__proto__")
     /\ o' = Js.mkObject (Js.create_property key f (Js.properties o)) (Js.prototype o)
  \/ (~ In key (Js.keys o) /\ key = "__proto__")
     /\ o' = Js.mkObject (Js.properties o) (Js.ProtoFunction f).
Proof.
  rewrite Set_unfold. unfold Js.keys.
  destruct (Js.own_property key (Js.properties o)) as [g|] eqn:Hown.
  - intros H. inversion H. left. split; [|reflexivity].
    destruct (in_dec string_dec key (map fst (Js.properties o))) as [|Hn]; [assumption|].
    apply own_property_None in Hn. congruence.
  - apply own_property_None in Hown.
    destruct (String.eqb_spec key "__proto__") as [->|Hne].
    + rewrite inherited_proto. intros H. inversion H. right. right. tauto.
    + destruct (inherited (Js.prototype o) key) as [[h [v [|]|[|]]]|] eqn:Hinh;
        intros H; inversion H; try (right; left; tauto).
      apply inherited_proto_accessor in Hinh. contradiction.
Qed.

Lemma mem_In key (ks : list string) : Js.mem key ks = true <-> In key ks.
Proof.
  unfold Js.mem. rewrite existsb_exists. split.
  - intros (k & Hin & E). apply String.eqb_eq in E. subst k. exact Hin.
  - intros Hin. exists key. split; [exact Hin | apply String.eqb_refl].
Qed.

Lemma defineCommand_inv (w w' : World) key f :
  defineCommand key f w = Normal tt w' ->
  Js.Set_ (commands w) key f = inl (commands w') /\ stdout w' = stdout w.
Proof.
  unfold defineCommand.
  destruct (Js.Set_ (commands w) key f) as [o'|e]; [|discriminate].
  intros H. inversion H. split; reflexivity.
Qed.

(** X1.  Whenever [defineCommand] returns, the next lookup under the same
    name finds the handler just given, in whatever state the registry was;
    nothing is printed. *)
Theorem define_then_lookup (w w' : World) key f :
  defineCommand key f w = Normal tt w' ->
  lookup key w' = Normal (Closure f) w' /\ stdout w' = stdout w.
Proof.
  intros Hdef. split.
  - exact (defineCommand_lookup _ _ _ _ Hdef).
  - exact (defineCommand_stdout _ _ _ _ Hdef).
Qed.

Lemma define_then_lookup_witness :
  let w' := mkWorld (Js.mkObject [("hw", hw); ("toString", hw)] Js.ProtoObject) [] in
  lookup "toString" w' = Normal (Closure hw) w' /\ stdout w' = stdout loaded.
Proof.
  exact (define_then_lookup loaded _ "toString" hw eq_refl).
Defined.

(** X2.  While the prototype of [commands] is %Object.prototype%,
    [defineCommand] returns for every name, "__proto__" included, and of
    two registrations under one name the second is the one found. *)
Theorem define_twice_under_object_prototype (w : World) key f g :
  Js.prototype (commands w) = Js.ProtoObject ->
  exists w' w'',
    defineCommand key f w = Normal tt w'
    /\ lookup key w' = Normal (Closure f) w'
    /\ defineCommand key g w' = Normal tt w''
    /\ lookup key w'' = Normal (Closure g) w''.
Proof.
  intros Hproto.
  destruct (reregister_lookup_plain w key f g Hproto) as (w' & w'' & H1 & H2 & H3).
  exists w', w''. repeat split; try assumption.
  exact (defineCommand_lookup _ _ _ _ H1).
Qed.

Lemma define_twice_under_object_prototype_witness :
  exists w' w'',
    defineCommand "__proto__" hw loaded = Normal tt w'
    /\ lookup "__proto__" w' = Normal (Closure hw) w'
    /\ defineCommand "__proto__" (fun _ => ([], None)) w' = Normal tt w''
    /\ lookup "__proto__" w'' = Normal (Closure (fun _ => ([], None))) w''.
Proof.
  exact (define_twice_under_object_prototype loaded "__proto__" hw (fun _ => ([], None))
           eq_refl).
Defined.

(** X3.  A registration under a name other than "__proto__" changes what
    [commands[m]] is for no other name [m], and leaves the prototype of
    [commands] and the output as they were. *)
Theorem define_leaves_other_names (w w' : World) key m f :
  key <> "__proto__" -> m <> key ->
  defineCommand key f w = Normal tt w' ->
  Js.Get (commands w') m = Js.Get (commands w) m
  /\ Js.prototype (commands w') = Js.prototype (commands w)
  /\ stdout w' = stdout w.
Proof.
  intros Hkey Hm Hdef.
  destruct (defineCommand_frame _ _ _ _ _ Hkey Hm Hdef) as [Hget Hout].
  destruct (defineCommand_inv _ _ _ _ Hdef) as [Hset _].
  repeat split; [exact Hget | exact (Set_prototype _ _ _ _ Hkey Hset) | exact Hout].
Qed.

Lemma define_leaves_other_names_witness :
  let w' := mkWorld (Js.mkObject [("hw", hw); ("help", hw)] Js.ProtoObject) [] in
  Js.Get (commands w') "toString" = Js.Get (commands loaded) "toString"
  /\ Js.prototype (commands w') = Js.prototype (commands loaded)
  /\ stdout w' = stdout loaded.
Proof.
  exact (define_leaves_other_names loaded _ "help" "toString" hw
           ltac:(discriminate) ltac:(discriminate) eq_refl).
Defined.

(** X4.  [defineCommand] fails only in one situation: a function object
    has been made the prototype of [commands], and the name is one of that
    function's read-only or restricted properties.  The registry and the
    output are then as before. *)
Theorem define_failure (w w' : World) key f (e : Error) :
  defineCommand key f w = Throw e w' ->
  w' = w
  /\ (exists g, Js.prototype (commands w) = Js.ProtoFunction g)
  /\ In key ["length"; "name"; "arguments"; "caller"]
  /\ ~ In key (Js.keys (commands w)).
Proof.
  unfold defineCommand. rewrite Set_unfold. unfold Js.keys.
  destruct (Js.own_property key (Js.properties (commands w))) as [g|] eqn:Hown;
    [discriminate|].
  apply own_property_None in Hown.
  destruct (Js.prototype (commands w)) as [|g] eqn:Hproto.
  - destruct (inherited_plain key) as [E|[(h & v & E)|E]]; rewrite E; discriminate.
  - intros H.
    assert (Hw : w' = w).
    { destruct (inherited (Js.ProtoFunction g) key) as [[h [v [|]|[|]]]|];
        inversion H; reflexivity. }
    repeat split; [exact Hw | eauto | | exact Hown].
    revert H. unfold inherited, ancestors, Js.find_property, Js.getOwnProperty.
    destruct (Js.mem key ["length"; "name"]) eqn:E1.
    { intros _. apply mem_In in E1. simpl in *. tauto. }
    destruct (Js.mem key ["arguments"; "caller"]) eqn:E2.
    { intros _. apply mem_In in E2. simpl in *. tauto. }
    destruct (Js.mem key Js.function_prototype_methods); [discriminate|].
    destruct (String.eqb key "__proto__"); [discriminate|].
    destruct (Js.mem key Js.object_prototype_methods); discriminate.
Qed.

Lemma define_failure_witness :
  let w := mkWorld (Js.mkObject [("hw", hw)] (Js.ProtoFunction hw)) [] in
  w = w
  /\ (exists g, Js.prototype (commands w) = Js.ProtoFunction g)
  /\ In "caller" ["length"; "name"; "arguments"; "caller"]
  /\ ~ In "caller" (Js.keys (commands w)).
Proof.
  exact (define_failure
           (mkWorld (Js.mkObject [("hw", hw)] (Js.ProtoFunction hw)) []) _
           "caller" hw (TypeError_restricted_property "caller") eq_refl).
Defined.

(** X5.  After a registration under a name other than "__proto__", the
    keys of the registry are the old keys and that name, no more and no
    less. *)
Theorem define_adds_one_key (w w' : World) key f :
  key <> "__proto__" ->
  defineCommand key f w = Normal tt w' ->
  forall k, In k (Js.keys (commands w')) <-> k = key \/ In k (Js.keys (commands w)).
Proof.
  intros Hkey Hdef k.
  destruct (defineCommand_inv _ _ _ _ Hdef) as [Hset _].
  destruct (Set_cases _ _ _ _ Hset) as [[Hin ->]|[[[Hnot _] ->]|[[_ Hproto] _]]];
    [| |contradiction]; unfold Js.keys in *; simpl.
  - rewrite keys_update_property. split; [tauto|]. intros [->|H]; assumption.
  - apply keys_create_property_In.
Qed.

Lemma define_adds_one_key_witness :
  In "help" (Js.keys (Js.mkObject [("hw", hw); ("help", hw)] Js.ProtoObject))
  <-> "help" = "help" \/ In "help" (Js.keys (commands loaded)).
Proof.
  exact (define_adds_one_key loaded _ "help" hw ltac:(discriminate) eq_refl "help").
Defined.

(** X6.  Registering again under a name that is already a key always
    returns, replaces the handler, and leaves [Object.keys], and with it
    the order of the listing, unchanged. *)
Theorem redefine_keeps_keys (w : World) key f :
  In key (Js.keys (commands w)) ->
  exists w',
    defineCommand key f w = Normal tt w'
    /\ lookup key w' = Normal (Closure f) w'
    /\ Js.keys (commands w') = Js.keys (commands w).
Proof.
  intros Hin. unfold Js.keys in Hin.
  destruct (own_property_In _ _ Hin) as [g Hown].
  exists (mkWorld (Js.mkObject (Js.update_property key f (Js.properties (commands w)))
                               (Js.prototype (commands w)))
                  (stdout w)).
  assert (Hdef : defineCommand key f w
                 = Normal tt (mkWorld (Js.mkObject
                                         (Js.update_property key f (Js.properties (commands w)))
                                         (Js.prototype (commands w)))
                                      (stdout w)))
    by (unfold defineCommand; rewrite Set_unfold, Hown; reflexivity).
  split; [exact Hdef|]. split.
  - exact (defineCommand_lookup _ _ _ _ Hdef).
  - unfold Js.keys. simpl. apply keys_update_property.
Qed.

Lemma redefine_keeps_keys_witness :
  exists w',
    defineCommand "hw" (fun _ => ([], None)) loaded = Normal tt w'
    /\ lookup "hw" w' = Normal (Closure (fun _ => ([], None))) w'
    /\ Js.keys (commands w') = Js.keys (commands loaded).
Proof.
  exact (redefine_keeps_keys loaded "hw" (fun _ => ([], None))
           (or_introl eq_refl)).
Defined.

(** X7.  A new name that is neither an array index nor "__proto__" is
    appended: it is the last key, after all the keys there were. *)
Theorem define_new_name_is_last (w w' : World) key f :
  ~ In key (Js.keys (commands w)) ->
  Js.array_index key = None -> key <> "__proto__" ->
  defineCommand key f w = Normal tt w' ->
  Js.keys (commands w') = Js.keys (commands w) ++ [key].
Proof.
  intros Hnot Hindex Hkey Hdef.
  destruct (defineCommand_inv _ _ _ _ Hdef) as [Hset _].
  destruct (Set_cases _ _ _ _ Hset) as [[Hin _]|[[_ ->]|[[_ Hproto] _]]];
    [contradiction | | contradiction].
  unfold Js.keys, Js.create_property. simpl. rewrite Hindex, map_app. reflexivity.
Qed.

Lemma define_new_name_is_last_witness :
  Js.keys (Js.mkObject [("hw", hw); ("help", hw)] Js.ProtoObject)
  = Js.keys (commands loaded) ++ ["help"].
Proof.
  exact (define_new_name_is_last loaded _ "help" hw
           ltac:(simpl; intros [H|[]]; discriminate) eq_refl
           ltac:(discriminate) eq_refl).
Defined.

(** X8.  The order of [Object.keys] is kept by every registration: the
    keys stay distinct, "__proto__" never becomes one, array indices come
    first in ascending numeric order and the other names after them.  The
    empty registry is in that order, so every registry built by
    [defineCommand] is. *)
Theorem define_keeps_keys_in_order :
  keys_in_order Js.empty
  /\ forall (w w' : World) key f,
       keys_in_order (commands w) ->
       defineCommand key f w = Normal tt w' ->
       keys_in_order (commands w').
Proof.
  split.
  - repeat split; simpl; [constructor | tauto | constructor].
  - intros w w' key f (Hnodup & Hproto & Hord) Hdef.
    destruct (defineCommand_inv _ _ _ _ Hdef) as [Hset _].
    unfold keys_in_order, Js.keys in *.
    destruct (Set_cases _ _ _ _ Hset) as [[Hin ->]|[[[Hnot Hkey] ->]|[_ ->]]]; simpl.
    + rewrite keys_update_property. tauto.
    + repeat split.
      * apply NoDup_create_property; assumption.
      * rewrite keys_create_property_In. intros [E|E]; [congruence | contradiction].
      * apply ordered_create_property; assumption.
    + tauto.
Qed.

Lemma define_keeps_keys_in_order_witness :
  keys_in_order (Js.mkObject [("7", hw); ("10", hw); ("hw", hw)] Js.ProtoObject).
Proof.
  assert (Hloaded : keys_in_order (commands loaded)).
  { exact (proj2 define_keeps_keys_in_order initial loaded "hw" hw
             (proj1 define_keeps_keys_in_order) eq_refl). }
  assert (H10 : keys_in_order (Js.mkObject [("10", hw); ("hw", hw)] Js.ProtoObject)).
  { exact (proj2 define_keeps_keys_in_order loaded
             (mkWorld (Js.mkObject [("10", hw); ("hw", hw)] Js.ProtoObject) [])
             "10" hw Hloaded eq_refl). }
  exact (proj2 define_keeps_keys_in_order
           (mkWorld (Js.mkObject [("10", hw); ("hw", hw)] Js.ProtoObject) [])
           (mkWorld (Js.mkObject [("7", hw); ("10", hw); ("hw", hw)] Js.ProtoObject) [])
           "7" hw H10 eq_refl).
Defined.

(** X9.  Every name in [Object.keys], that is every line of the listing,
    is a command that runs: the lookup finds a handler, and [runCommand]
    under that name is the call of that handler with the arguments. *)
Theorem listed_name_runs (w : World) key (args : list string) :
  In key (Js.keys (commands w)) ->
  exists f,
    lookup key w = Normal (Closure f) w
    /\ runCommand (Some key) args w = call (Closure f) args w.
Proof.
  intros Hin. unfold Js.keys in Hin.
  destruct (own_property_In _ _ Hin) as [f Hown].
  assert (Hget : Js.Get (commands w) key = inl (Closure f))
    by (rewrite Get_unfold, Hown; reflexivity).
  exists f. split.
  - unfold lookup. rewrite Hget. reflexivity.
  - apply runCommand_defined; [exact Hget | discriminate].
Qed.

Lemma listed_name_runs_witness :
  exists f,
    lookup "hw" loaded = Normal (Closure f) loaded
    /\ runCommand (Some "hw") ["a"; "b"] loaded = call (Closure f) ["a"; "b"] loaded.
Proof.
  exact (listed_name_runs loaded "hw" ["a"; "b"] (or_introl eq_refl)).
Defined.

End RegistryKeys.

(** ** The parser as one pass *)

Section ParserScan.

Import ParseArgs.

#[local] Arguments ascii_dec : simpl never.

(** The option token an option-like argument gives rise to carries the raw
    name [raw_name] computes. *)
Lemma argsToTokens_raw_name (arg : string) (rest : list string) :
  option_like arg = true ->
  exists name value inlineValue tokens,
    argsToTokens (arg :: rest) = option_ name (raw_name arg) value inlineValue :: tokens.
Proof.
  intros H. destruct (option_like_shape arg H) as (d & s & -> & Hds).
  rewrite argsToTokens_equation_2. unfold raw_name.
  rewrite prefix_dash_dash, prefix_dash.
  destruct (Ascii.eqb_spec d "-") as [->|Hd].
  - destruct Hds as [Hd|Hs]; [congruence|].
    destruct s as [|e s]; [congruence|].
    replace (String.eqb (String "-" (String "-" (String e s))) "--") with false
      by (simpl; reflexivity).
    change (isLoneShortOption (String "-" (String "-" (String e s)))) with false.
    destruct (sumbool_of_bool _) as [E|E]; [discriminate|].
    change (isShortOptionAndValue (String "-" (String "-" (String e s)))) with false.
    unfold isLoneLongOption, isLongOptionAndValue.
    destruct (includes_from _ "=" 3); simpl; eauto 10.
  - apply Ascii.eqb_neq in Hd.
    replace (String.eqb (String "-" (String d s)) "--") with false
      by (simpl; rewrite Hd; reflexivity).
    change (Ascii.eqb "-" "-" && false) with false. cbv iota.
    destruct s as [|e s].
    + replace (isLoneShortOption (String "-" (String d EmptyString))) with true
        by (unfold isLoneShortOption, charAt; simpl; rewrite Hd; reflexivity).
      simpl. eauto 10.
    + change (isLoneShortOption (String "-" (String d (String e s)))) with false.
      destruct (sumbool_of_bool _) as [E|E].
      * change (expand_group (String "-" (String d (String e s))))
          with (String "-" (String d EmptyString)
                  :: expand_group (String "-" (String e s))).
        simpl app. rewrite argsToTokens_equation_2.
        replace (String.eqb (String "-" (String d EmptyString)) "--") with false
          by (simpl; rewrite Hd; reflexivity).
        replace (isLoneShortOption (String "-" (String d EmptyString))) with true
          by (unfold isLoneShortOption, charAt; simpl; rewrite Hd; reflexivity).
        simpl. eauto 10.
      * exfalso. revert E. unfold isShortOptionGroup, charAt. simpl.
        rewrite Hd. discriminate.
Qed.

Lemma parseArgs_scan (args : list string) :
  parseArgs args = scan args.
Proof.
  unfold parseArgs. induction args as [|arg rest IH]; simpl.
  - rewrite argsToTokens_equation_1. reflexivity.
  - destruct (String.eqb_spec arg "--") as [->|Hne].
    + rewrite argsToTokens_terminator. simpl. apply processTokens_positionals.
    + destruct (option_like arg) eqn:Harg.
      * destruct (argsToTokens_raw_name arg rest Harg)
          as (name & value & inlineValue & tokens & E).
        rewrite E. reflexivity.
      * assert (Hplain : plain arg = true).
        { unfold plain. rewrite Harg.
          apply String.eqb_neq in Hne. rewrite Hne. reflexivity. }
        rewrite (argsToTokens_plain _ _ Hplain). simpl. rewrite IH. reflexivity.
Qed.


Lemma scan_plain (args : list string) :
  forallb plain args = true -> scan args = inl args.
Proof.
  rewrite <- parseArgs_scan. apply parseArgs_plain.
Qed.

Lemma scan_cons_plain (arg : string) (rest : list string) :
  plain arg = true ->
  scan (arg :: rest) = match scan rest with
                       | inl positionals => inl (arg :: positionals)
                       | inr e => inr e
                       end.
Proof.
  unfold plain. intros H. apply andb_prop in H. destruct H as [Hopt Hterm].
  simpl. apply negb_true_iff in Hopt, Hterm. rewrite Hopt, Hterm. reflexivity.
Qed.

End ParserScan.

(** ** Whole runs *)

Section Runs.

Implicit Types (w : World) (f : CommandFunction) (argv args rest : list string).

Lemma main_scan argv w :
  main argv w = match scan argv with
                | inl positionals =>
                    dispatch (mkCommand (hd_error positionals) (tl positionals)) w
                | inr e => Throw e w
                end.
Proof.
  unfold main, bind, parseCommand. rewrite parseArgs_scan.
  destruct (scan argv); reflexivity.
Qed.

Lemma run_main argv : run argv = main argv loaded.
Proof. unfold run, index_ts, bind. rewrite module_load. reflexivity. Qed.

(** Under %Object.prototype% a lookup is [undefined] exactly for the names
    that are neither a key nor a property of the prototype. *)
Lemma Get_undefined_iff (o : Js.Object) (key : string) :
  Js.prototype o = Js.ProtoObject ->
  Js.Get o key = inl Undefined
  <-> ~ In key (Js.keys o) /\ key <> "__proto__"
      /\ ~ In key Js.object_prototype_methods.
Proof.
  intros Hproto. rewrite Get_unfold, Hproto. unfold Js.keys.
  destruct (Js.own_property key (Js.properties o)) as [f|] eqn:Hown.
  - split; [discriminate|]. intros (Hnot & _). apply own_property_None in Hnot. congruence.
  - apply own_property_None in Hown.
    unfold inherited, ancestors, Js.find_property, Js.getOwnProperty, Js.prototype_value.
    rewrite Hproto.
    destruct (String.eqb_spec key "__proto__") as [->|Hne].
    + split; [discriminate | tauto].
    + destruct (Js.mem key Js.object_prototype_methods) eqn:Hmem.
      * apply mem_In in Hmem. split; [discriminate | tauto].
      * split; [|reflexivity]. intros _. repeat split; try assumption.
        intros Hin. apply mem_In in Hin. congruence.
Qed.





(** X12.  The first token of the argument vector (under the host: the path
    of the runtime) has no influence on a run: it becomes the [command]
    field, which the dispatch never reads. *)
Theorem first_token_is_ignored (x y : string) rest w :
  plain x = true -> plain y = true ->
  main (x :: rest) w = main (y :: rest) w.
Proof.
  intros Hx Hy. rewrite !main_scan, (scan_cons_plain x), (scan_cons_plain y) by assumption.
  destruct (scan rest); reflexivity.
Qed.

Lemma first_token_is_ignored_witness :
  main ["/usr/bin/bun"; "index.ts"; "hw"] loaded = main ["-"; "index.ts"; "hw"] loaded.
Proof.
  exact (first_token_is_ignored "/usr/bin/bun" "-" ["index.ts"; "hw"] loaded
           eq_refl eq_refl).
Defined.

(** X13.  A bare "--" among tokens that parse as positionals is
    transparent: the run is the same as without it. *)
Theorem terminator_is_transparent (before after : list string) w :
  forallb plain before = true -> forallb plain after = true ->
  main (before ++ "--" :: after) w = main (before ++ after) w.
Proof.
  intros Hbefore Hafter. rewrite !main_scan, <- !parseArgs_scan.
  rewrite parseArgs_terminator by assumption.
  rewrite parseArgs_plain by (rewrite forallb_app, Hbefore, Hafter; reflexivity).
  reflexivity.
Qed.

Lemma terminator_is_transparent_witness :
  main ["bun"; "index.ts"; "--"; "hw"] loaded = main ["bun"; "index.ts"; "hw"] loaded.
Proof.
  exact (terminator_is_transparent ["bun"; "index.ts"] ["hw"] loaded eq_refl eq_refl).
Defined.

(** X14.  A run whose user command is not "hw", not "__proto__" and not a
    property name of %Object.prototype% prints the header and the single
    line [- hw], and returns, whatever arguments follow the command. *)
Theorem unknown_name_run (runtime script name : string) rest :
  forallb plain (runtime :: script :: name :: rest) = true ->
  name <> "hw" -> name <> "__proto__" -> ~ In name Js.object_prototype_methods ->
  run (runtime :: script :: name :: rest)
  = Normal tt (mkWorld (commands loaded) ["Available commands:"; "- hw"]).
Proof.
  intros Hplain Hhw Hproto Hmethod.
  rewrite run_main, main_scan, scan_plain by assumption.
  rewrite dispatch_arguments by discriminate.
  apply runCommand_undefined.
  apply Get_undefined_iff; [reflexivity|].
  repeat split; try assumption.
  simpl. intros [E|[]]. congruence.
Qed.

Lemma unknown_name_run_witness :
  run ["bun"; "index.ts"; "unknown"; "x"]
  = Normal tt (mkWorld (commands loaded) ["Available commands:"; "- hw"]).
Proof.
  apply (unknown_name_run "bun" "index.ts" "unknown" ["x"] eq_refl);
    [discriminate | discriminate |].
  simpl. intros H.
  repeat (destruct H as [H|H]; [discriminate H|]). exact H.
Defined.

(** X15.  [hw] ignores its arguments: with "hw" as the user command the run
    prints exactly [Hello world] and returns, whatever tokens that parse as
    positionals follow. *)
Theorem hw_run_with_arguments (runtime script : string) rest :
  forallb plain (runtime :: script :: "hw" :: rest) = true ->
  run (runtime :: script :: "hw" :: rest)
  = Normal tt (mkWorld (commands loaded) ["Hello world"]).
Proof.
  intros Hplain.
  rewrite run_main, main_scan, scan_plain by assumption.
  reflexivity.
Qed.

Lemma hw_run_with_arguments_witness :
  run ["bun"; "index.ts"; "hw"; "-"; "more"]
  = Normal tt (mkWorld (commands loaded) ["Hello world"]).
Proof.
  exact (hw_run_with_arguments "bun" "index.ts" ["-"; "more"] eq_refl).
Defined.

(** X16.  With any of the eleven method names of %Object.prototype% as the
    user command, the run prints nothing and calls that inherited method
    with the array [args] (script token, name, and what follows). *)
Theorem inherited_name_run (runtime script name : string) rest :
  forallb plain (runtime :: script :: name :: rest) = true ->
  In name Js.object_prototype_methods ->
  run (runtime :: script :: name :: rest)
  = Enter (OfObjectPrototype name) (script :: name :: rest) loaded.
Proof.
  intros Hplain Hmethod.
  rewrite run_main, main_scan, scan_plain by assumption.
  rewrite dispatch_arguments by discriminate.
  assert (Hget : Js.Get (commands loaded) name = inl (Builtin (OfObjectPrototype name))).
  { simpl in Hmethod.
    repeat (destruct Hmethod as [<-|Hmethod]; [reflexivity|]). contradiction. }
  change (runCommand (nth_error (script :: name :: rest) 1) (script :: name :: rest) loaded)
    with (runCommand (Some name) (script :: name :: rest) loaded).
  rewrite (runCommand_defined loaded (Some name) _ _ Hget) by discriminate.
  reflexivity.
Qed.

Lemma inherited_name_run_witness :
  run ["bun"; "index.ts"; "hasOwnProperty"; "x"]
  = Enter (OfObjectPrototype "hasOwnProperty") ["index.ts"; "hasOwnProperty"; "x"] loaded.
Proof.
  apply (inherited_name_run "bun" "index.ts" "hasOwnProperty" ["x"] eq_refl).
  simpl. tauto.
Defined.




(** X18.  When [parseCommand] leaves no arguments (a vector with at most
    one positional), the branch of line 98 is taken, and since the program
    registers no "help" the call of [commands.help] throws a TypeError;
    nothing is printed. *)
Theorem short_vector_run_throws argv (c : Command) :
  parseCommand argv loaded = Normal c loaded -> args c = [] ->
  run argv = Throw TypeError_not_a_function loaded.
Proof.
  intros Hparse Hargs. rewrite run_main. unfold main, bind. rewrite Hparse.
  destruct c as [c' args']. simpl in Hargs. subst args'. reflexivity.
Qed.

Lemma short_vector_run_throws_witness :
  run ["--"] = Throw TypeError_not_a_function loaded
  /\ run ["bun"] = Throw TypeError_not_a_function loaded.
Proof.
  split.
  - exact (short_vector_run_throws ["--"] (mkCommand None []) eq_refl eq_refl).
  - exact (short_vector_run_throws ["bun"] (mkCommand (Some "bun") []) eq_refl eq_refl).
Defined.

(** X19.  While the prototype of [commands] is %Object.prototype%, the
    listing is what [runCommand] answers exactly to the names whose lookup
    is [undefined], and these are the names that are neither a key of the
    registry, nor "__proto__", nor a method name of %Object.prototype%. *)
Theorem listing_names w (key : string) args :
  Js.prototype (commands w) = Js.ProtoObject ->
  (lookup key w = Normal Undefined w
   <-> ~ In key (Js.keys (commands w)) /\ key <> "__proto__"
       /\ ~ In key Js.object_prototype_methods)
  /\ (lookup key w = Normal Undefined w ->
      runCommand (Some key) args w
      = Normal tt (mkWorld (commands w) (stdout w ++ listing (commands w)))).
Proof.
  intros Hproto.
  assert (Hlookup : lookup key w = Normal Undefined w
                    <-> Js.Get (commands w) key = inl Undefined).
  { unfold lookup. destruct (Js.Get (commands w) key) as [v|e].
    - split; intros H; inversion H; reflexivity.
    - split; discriminate. }
  split.
  - rewrite Hlookup. apply Get_undefined_iff. exact Hproto.
  - intros H. apply runCommand_undefined. apply Hlookup. exact H.
Qed.

Lemma listing_names_witness :
  (lookup "help" loaded = Normal Undefined loaded
   <-> ~ In "help" (Js.keys (commands loaded)) /\ "help" <> "__proto__"
       /\ ~ In "help" Js.object_prototype_methods)
  /\ (lookup "help" loaded = Normal Undefined loaded ->
      runCommand (Some "help") [] loaded
      = Normal tt (mkWorld (commands loaded) (stdout loaded ++ listing (commands loaded)))).
Proof.
  exact (listing_names loaded "help" [] eq_refl).
Defined.

(** X20.  A handler registered under "__proto__" can be run but is never
    listed: the registration always returns and adds no key, the lookup
    finds the handler, and [runCommand] under that name calls it. *)
Theorem proto_command_is_hidden w f args :
  ~ In "__proto__" (Js.keys (commands w)) ->
  exists w',
    defineCommand "__proto__" f w = Normal tt w'
    /\ Js.keys (commands w') = Js.keys (commands w)
    /\ lookup "__proto__" w' = Normal (Closure f) w'
    /\ runCommand (Some "__proto__") args w' = call (Closure f) args w'.
Proof.
  intros Hnot. unfold Js.keys in Hnot. apply own_property_None in Hnot.
  exists (mkWorld (Js.mkObject (Js.properties (commands w)) (Js.ProtoFunction f)) (stdout w)).
  assert (Hdef : defineCommand "__proto__" f w
                 = Normal tt (mkWorld (Js.mkObject (Js.properties (commands w))
                                                   (Js.ProtoFunction f)) (stdout w)))
    by (unfold defineCommand; rewrite Set_unfold, Hnot, inherited_proto; reflexivity).
  pose proof (defineCommand_lookup _ _ _ _ Hdef) as Hlookup.
  repeat split; [exact Hdef | exact Hlookup |].
  apply runCommand_defined; [|discriminate].
  unfold lookup in Hlookup. simpl in *.
  destruct (Js.Get _ "__proto__") as [v|e]; inversion Hlookup. reflexivity.
Qed.

Lemma proto_command_is_hidden_witness :
  exists w',
    defineCommand "__proto__" hw loaded = Normal tt w'
    /\ Js.keys (commands w') = Js.keys (commands loaded)
    /\ lookup "__proto__" w' = Normal (Closure hw) w'
    /\ runCommand (Some "__proto__") ["x"] w' = call (Closure hw) ["x"] w'.
Proof.
  apply (proto_command_is_hidden loaded hw ["x"]).
  simpl. intros [H|[]]. discriminate H.
Defined.

End Runs.
